(** * agent_smith: the sanitizer and the chunker of the data-preparation step

    A shallow embedding of [src/security/sanitizer.py] (class
    [DataSanitizer]) and of [create_chunks] from
    [src/dataprep/01_chunk_and_clean.py], with the properties stated about
    them.

    Python strings are modelled as lists of characters whose code point is
    below 256 ([Ascii.ascii]: ASCII and the Latin-1 supplement); the
    character classes of [str.split] and of the [re] module ([\s], [\w],
    [\d]) are the Unicode ones restricted to that range.  Python integers
    are [Z]. *)

From Stdlib Require Import List Ascii String ZArith Lia Bool Arith.
Import ListNotations.

(** [length] is the length of a list throughout ([String.length] is not
    used). *)
Abbreviation length := Datatypes.length.

(** ** Text: characters, [str.split()] and [str.join] *)

Module Text.

Abbreviation text := (list ascii).

Definition code (c : ascii) : N := N_of_ascii c.

Definition between (lo hi : N) (c : ascii) : bool :=
  ((lo <=? code c) && (code c <=? hi))%N.

Definition is_char (x c : ascii) : bool := Ascii.eqb x c.

(** The characters on which [str.split()] splits and which [\s] matches:
    TAB, LF, VT, FF, CR, the separators 0x1c-0x1f, SPACE, NEL and
    NO-BREAK SPACE. *)
Definition is_whitespace (c : ascii) : bool :=
  between 9 13 c || between 28 32 c
  || (code c =? 133)%N || (code c =? 160)%N.

Definition is_digit (c : ascii) : bool := between 48 57 c.
Definition is_upper (c : ascii) : bool := between 65 90 c.
Definition is_lower (c : ascii) : bool := between 97 122 c.
Definition is_alpha (c : ascii) : bool := is_upper c || is_lower c.

(** [\w] of a [str] pattern: alphanumeric in the sense of [str.isalnum],
    or the underscore. *)
Definition is_word (c : ascii) : bool :=
  is_digit c || is_alpha c || is_char "_" c
  || (code c =? 170)%N || between 178 179 c || (code c =? 181)%N
  || between 185 186 c || between 188 190 c
  || between 192 214 c || between 216 246 c || between 248 255 c.

(** [str.lower] on one character, for the letters A-Z. *)
Definition to_lower (c : ascii) : ascii :=
  if is_upper c then ascii_of_N (code c + 32) else c.

Definition lit (s : string) : text := list_ascii_of_string s.

(** [text.split()]: the maximal runs of non-whitespace characters. *)
Definition at_gap (s : text) : bool :=
  match s with
  | [] => true
  | d :: _ => is_whitespace d
  end.

Fixpoint split (s : text) : list text :=
  match s with
  | [] => []
  | c :: t =>
      let rest := split t in
      if is_whitespace c then rest
      else if at_gap t then [c] :: rest
      else match rest with
           | w :: ws => (c :: w) :: ws
           | [] => [[c]]
           end
  end.

(** [sep.join(ws)]. *)
Fixpoint join (sep : text) (ws : list text) : text :=
  match ws with
  | [] => []
  | [w] => w
  | w :: rest => w ++ sep ++ join sep rest
  end.

(** [needle in haystack]. *)
Fixpoint starts_with (needle s : text) : bool :=
  match needle, s with
  | [], _ => true
  | a :: n', b :: s' => Ascii.eqb a b && starts_with n' s'
  | _ :: _, [] => false
  end.

Fixpoint contains (needle s : text) : bool :=
  starts_with needle s ||
  match s with
  | [] => false
  | _ :: t => contains needle t
  end.

End Text.

Import Text.

(** ** The chunker: [create_chunks] *)

Module Chunker.

Inductive outcome (A : Type) : Type :=
| Returned (a : A)
| ValueError.
Arguments Returned {A} a.
Arguments ValueError {A}.

(** [range(start, stop, step)] as the list it iterates over; a zero step
    raises [ValueError]. *)
Definition range_len (start stop step : Z) : Z :=
  if (0 <? step)%Z then Z.max 0 ((stop - start + step - 1) / step)
  else Z.max 0 ((start - stop - step - 1) / (- step)).

Definition py_range (start stop step : Z) : outcome (list Z) :=
  if (step =? 0)%Z then ValueError
  else Returned
         (map (fun k => (start + Z.of_nat k * step)%Z)
              (seq 0 (Z.to_nat (range_len start stop step)))).

(** A slice bound as Python normalises it: a negative bound counts from
    the end, and every bound is clipped to [0, n]. *)
Definition slice_bound (n i : Z) : Z :=
  if (i <? 0)%Z then Z.max 0 (i + n) else Z.min i n.

(** [l[lo:hi]]. *)
Definition py_slice {A : Type} (l : list A) (lo hi : Z) : list A :=
  let n := Z.of_nat (length l) in
  let a := slice_bound n lo in
  let b := slice_bound n hi in
  firstn (Z.to_nat (b - a)) (skipn (Z.to_nat a) l).

(** The body of the [for] loop: one window, kept when it is longer than
    50 characters. *)
Definition window (words : list text) (chunk_size i : Z) : text :=
  join (lit " ") (py_slice words i (i + chunk_size)).

Definition loop_body (words : list text) (chunk_size : Z)
           (chunks : list text) (i : Z) : list text :=
  let chunk := window words chunk_size i in
  if 50 <? length chunk then chunks ++ [chunk] else chunks.

Definition create_chunks (t : text) (chunk_size overlap : Z)
  : outcome (list text) :=
  let words := split t in
  match words with
  | [] => Returned []
  | _ :: _ =>
      match py_range 0 (Z.of_nat (length words)) (chunk_size - overlap) with
      | ValueError => ValueError
      | Returned offsets =>
          Returned (fold_left (loop_body words chunk_size) offsets [])
      end
  end.

End Chunker.

Import Chunker.

(** ** Regular expressions: the fragment of [re] that the sanitizer uses *)

Module Regex.

Inductive regex : Type :=
| Empty
| Class (p : ascii -> bool)           (* one character of a class *)
| Boundary                            (* \b *)
| Cat (a b : regex)
| Alt (a b : regex)                   (* a|b, a tried first *)
| Repeat (lo : nat) (hi : option nat) (a : regex).   (* greedy a{lo,hi} *)

Infix ";;" := Cat (at level 61, right associativity).

(** A position in the subject: the character before it, if any, and the
    text from it on. *)
Abbreviation state := (option ascii * text)%type.

Definition word_char (o : option ascii) : bool :=
  match o with
  | Some c => is_word c
  | None => false
  end.

(** [\b]: exactly one of the two neighbours is a word character. *)
Definition at_boundary (st : state) : bool :=
  xorb (word_char (fst st)) (word_char (hd_error (snd st))).

Definition exhausted (hi : option nat) : bool :=
  match hi with
  | Some 0 => true
  | _ => false
  end.

Definition advances (st st' : state) : bool :=
  length (snd st') <? length (snd st).

(** Greedy repetition: one more round of [step] is tried before stopping;
    a round that consumes nothing is not repeated. *)
Fixpoint iterate (step : state -> list state) (fuel lo : nat)
         (hi : option nat) (st : state) : list state :=
  let stop := if lo =? 0 then [st] else [] in
  match fuel with
  | 0 => stop
  | S fuel' =>
      (if exhausted hi then []
       else flat_map (iterate step fuel' (pred lo) (option_map pred hi))
                     (filter (advances st) (step st)))
      ++ stop
  end.

(** The backtracking matcher: every position at which a match of [r]
    begun at [st] can end, in the order in which [re] tries them. *)
Fixpoint run (r : regex) (st : state) : list state :=
  match r with
  | Empty => [st]
  | Class p =>
      match snd st with
      | c :: t => if p c then [(Some c, t)] else []
      | [] => []
      end
  | Boundary => if at_boundary st then [st] else []
  | Cat a b => flat_map (run b) (run a st)
  | Alt a b => run a st ++ run b st
  | Repeat lo hi a => iterate (run a) (S (length (snd st))) lo hi st
  end.

(** The match that [re] reports at a position: the first one found. *)
Definition match_here (r : regex) (st : state) : option state :=
  hd_error (run r st).

(** [finditer]: the spans [(b, e)] of the non-overlapping matches, found
    from left to right.  [skip] counts the characters still inside the
    last match, [pos] is the index of the position [(prev, s)].  After an
    empty match the scan moves on by one character; no pattern of the
    sanitizer has an empty match. *)
Fixpoint scan (r : regex) (skip pos : nat) (prev : option ascii) (s : text)
  : list (nat * nat) :=
  match skip with
  | S k =>
      match s with
      | [] => []
      | c :: t => scan r k (S pos) (Some c) t
      end
  | 0 =>
      match match_here r (prev, s) with
      | Some (_, s') =>
          let n := length s - length s' in
          (pos, pos + n) ::
            match s with
            | [] => []
            | c :: t => scan r (pred n) (S pos) (Some c) t
            end
      | None =>
          match s with
          | [] => []
          | c :: t => scan r 0 (S pos) (Some c) t
          end
      end
  end.

Definition finditer (r : regex) (s : text) : list (nat * nat) :=
  scan r 0 0 None s.

(** The text between the matches is copied, each match is replaced. *)
Fixpoint splice (repl s : text) (pos : nat) (spans : list (nat * nat))
  : text :=
  match spans with
  | [] => skipn pos s
  | (b, e) :: rest =>
      firstn (b - pos) (skipn pos s) ++ repl ++ splice repl s e rest
  end.

(** [re.sub(r, repl, s)] for a replacement without escapes. *)
Definition sub (r : regex) (repl s : text) : text :=
  splice repl s 0 (finditer r s).

(** Literal characters, as they are and under [(?i)]. *)
Definition chr (c : ascii) : regex := Class (is_char c).
Definition chr_i (c : ascii) : regex :=
  Class (fun x => Ascii.eqb (to_lower x) (to_lower c)).

Definition word_i (s : string) : regex :=
  fold_right (fun c r => chr_i c ;; r) Empty (lit s).

Definition one_of (s : string) (c : ascii) : bool :=
  existsb (Ascii.eqb c) (lit s).

End Regex.

Import Regex.

(** ** The sanitizer: [DataSanitizer] *)

Module DataSanitizer.

Definition digit : regex := Class is_digit.

(** [\b(?:\d{1,3}\.){3}\d{1,3}\b] *)
Definition IPV4 : regex :=
  Boundary ;;
  Repeat 3 (Some 3) (Repeat 1 (Some 3) digit ;; chr ".") ;;
  Repeat 1 (Some 3) digit ;;
  Boundary.

Definition email_local (c : ascii) : bool :=
  is_alpha c || is_digit c || one_of "._%+-" c.
Definition email_domain (c : ascii) : bool :=
  is_alpha c || is_digit c || one_of ".-" c.
Definition email_tld (c : ascii) : bool :=
  is_alpha c || is_char "|" c.

(** [\b[A-Za-z0-9._%+-]+@[A-Za-z0-9.-]+\.[A-Z|a-z]{2,}\b] *)
Definition EMAIL : regex :=
  Boundary ;;
  Repeat 1 None (Class email_local) ;;
  chr "@" ;;
  Repeat 1 None (Class email_domain) ;;
  chr "." ;;
  Repeat 2 None (Class email_tld) ;;
  Boundary.

Definition token_char (c : ascii) : bool :=
  is_alpha c || is_digit c || one_of "_-" c.

Definition opt_sep : regex := Repeat 0 (Some 1) (Class (one_of "_-")).

Definition space : regex := Class is_whitespace.

(** [(api[_-]?key|access[_-]?token|secret|password|auth)] under [(?i)] *)
Definition keyword : regex :=
  Alt (word_i "api" ;; opt_sep ;; word_i "key")
 (Alt (word_i "access" ;; opt_sep ;; word_i "token")
 (Alt (word_i "secret")
 (Alt (word_i "password")
      (word_i "auth")))).

(** [(?i)\b(api[_-]?key|...|auth)\s*[:=]\s*[A-Za-z0-9_\-]{16,}\b] *)
Definition SECRET_KEY : regex :=
  Boundary ;;
  keyword ;;
  Repeat 0 None space ;;
  Class (one_of ":=") ;;
  Repeat 0 None space ;;
  Repeat 16 None (Class token_char) ;;
  Boundary.

Definition hex (c : ascii) : bool :=
  is_digit c || between 65 70 c || between 97 102 c.

(** [([0-9A-Fa-f]{2}[:-]){5}([0-9A-Fa-f]{2})] *)
Definition MAC_ADDR : regex :=
  Repeat 5 (Some 5) (Repeat 2 (Some 2) (Class hex) ;; Class (one_of ":-")) ;;
  Repeat 2 (Some 2) (Class hex).

(** [self.patterns] and [self.replacements], in insertion order. *)
Definition patterns : list (string * regex) :=
  [ ("IPV4", IPV4); ("EMAIL", EMAIL);
    ("SECRET_KEY", SECRET_KEY); ("MAC_ADDR", MAC_ADDR) ]%string.

Definition replacements : list (string * text) :=
  [ ("IPV4", lit "[REDACTED_IP]");
    ("EMAIL", lit "[REDACTED_EMAIL]");
    ("SECRET_KEY", lit "[REDACTED_SECRET]");
    ("MAC_ADDR", lit "[REDACTED_MAC]") ]%string.

(** [d.get(key, default)] *)
Fixpoint get {A : Type} (d : list (string * A)) (key : string) (default : A)
  : A :=
  match d with
  | [] => default
  | (k, v) :: rest => if String.eqb k key then v else get rest key default
  end.

Definition replacement (key : string) : text :=
  get replacements key (lit "[REDACTED]").

Definition apply_pattern (cleaned : text) (entry : string * regex) : text :=
  sub (snd entry) (replacement (fst entry)) cleaned.

Definition clean_text (t : text) : text :=
  match t with
  | [] => []
  | _ :: _ => fold_left apply_pattern patterns t
  end.

End DataSanitizer.

Import DataSanitizer.

(** ** What the matcher computes *)

Module Semantics.

(** The character before the position reached after reading [w]. *)
Definition last_char (prev : option ascii) (w : text) : option ascii :=
  fold_left (fun _ c => Some c) w prev.

(** [w] is what lies between the positions [st] and [st']. *)
Definition consumed (st st' : state) (w : text) : Prop :=
  snd st = w ++ snd st' /\ fst st' = last_char (fst st) w.

(** Rounds of a repetition: [lo] of them are still due, [hi] bounds the
    rounds that remain, and each round advances. *)
Inductive Iter (R : state -> state -> Prop)
  : nat -> option nat -> state -> state -> Prop :=
| Iter_stop hi st : Iter R 0 hi st st
| Iter_more lo hi s1 s2 s3 :
    exhausted hi = false ->
    R s1 s2 ->
    advances s1 s2 = true ->
    Iter R (pred lo) (option_map pred hi) s2 s3 ->
    Iter R lo hi s1 s3.

(** [denote r st st']: a match of [r] begun at [st] can end at [st']. *)
Fixpoint denote (r : regex) (st st' : state) : Prop :=
  match r with
  | Empty => st' = st
  | Class p => exists c t, snd st = c :: t /\ p c = true /\ st' = (Some c, t)
  | Boundary => st' = st /\ at_boundary st = true
  | Cat a b => exists mid, denote a st mid /\ denote b mid st'
  | Alt a b => denote a st st' \/ denote b st st'
  | Repeat lo hi a => Iter (denote a) lo hi st st'
  end.

(** The pattern can match the part [w] of the text [before ++ w ++ after]. *)
Definition matches_span (r : regex) (before w after : text) : Prop :=
  In (last_char (last_char None before) w, after)
     (run r (last_char None before, w ++ after)).


Definition all_chars : list ascii := map ascii_of_nat (seq 0 256).

(** Every character of the class [q] is in the class [p]. *)
Definition subclass (q p : ascii -> bool) : bool :=
  forallb (fun c => implb (q c) (p c)) all_chars.

(** Every character that [r] can read is in [p]. *)
Fixpoint reads_only (p : ascii -> bool) (r : regex) : bool :=
  match r with
  | Empty | Boundary => true
  | Class q => subclass q p
  | Cat a b | Alt a b => reads_only p a && reads_only p b
  | Repeat _ _ a => reads_only p a
  end.

(** Every match of [r] reads a character of [p]. *)
Fixpoint requires (p : ascii -> bool) (r : regex) : bool :=
  match r with
  | Empty | Boundary => false
  | Class q => subclass q p
  | Cat a b => requires p a || requires p b
  | Alt a b => requires p a && requires p b
  | Repeat lo _ a => (0 <? lo) && requires p a
  end.

Definition any_char (c : ascii) : bool := true.

(** Every repetition in [r] is over a pattern that cannot match the empty
    word, so that no round is ever left out for want of progress. *)
Fixpoint rounds_advance (r : regex) : bool :=
  match r with
  | Empty | Boundary | Class _ => true
  | Cat a b | Alt a b => rounds_advance a && rounds_advance b
  | Repeat _ _ a => requires any_char a && rounds_advance a
  end.

End Semantics.

Import Semantics.

(** ** The words that a pattern matches *)

Module Shape.

(** Rounds of a repetition, read as words: each round reads a non-empty
    word. *)
Inductive rounds (S : option ascii -> text -> text -> Prop)
  : nat -> option nat -> option ascii -> text -> text -> Prop :=
| rounds_stop hi prev rest : rounds S 0 hi prev [] rest
| rounds_more lo hi prev u v rest :
    exhausted hi = false ->
    u <> [] ->
    S prev u (v ++ rest) ->
    rounds S (pred lo) (option_map pred hi) (last_char prev u) v rest ->
    rounds S lo hi prev (u ++ v) rest.

(** [shape r prev u rest]: [r] can match the word [u] when [prev] is the
    character before it and [rest] the text after it. *)
Fixpoint shape (r : regex) (prev : option ascii) (u rest : text) : Prop :=
  match r with
  | Empty => u = []
  | Class p => exists c, u = [c] /\ p c = true
  | Boundary => u = [] /\ at_boundary (prev, rest) = true
  | Cat a b =>
      exists u1 u2,
        u = u1 ++ u2 /\
        shape a prev u1 (u2 ++ rest) /\
        shape b (last_char prev u1) u2 rest
  | Alt a b => shape a prev u rest \/ shape b prev u rest
  | Repeat lo hi a => rounds (shape a) lo hi prev u rest
  end.

End Shape.

Import Shape.

(** ** Definitions used to state the properties of the chunker *)

(** A token: a non-empty run without whitespace. *)
Definition token (w : text) : Prop :=
  w <> [] /\ Forall (fun c => is_whitespace c = false) w.

Definition long (chunk : text) : bool := 50 <? length chunk.

(** The number of windows over [n] tokens with a stride of [s]. *)
Definition window_count (n s : nat) : nat := (n + s - 1) / s.

(** The window of [size] tokens that starts at token [i]. *)
Definition tokens_from (words : list text) (size i : nat) : list text :=
  firstn size (skipn i words).

Definition three_long_words : text :=
  join (lit " ") [repeat "a"%char 51; repeat "b"%char 51; repeat "c"%char 51].

Definition thousand_words : text := List.concat (repeat (lit "w ") 1000).

(** ** Definitions used to state the properties of the sanitizer *)

(** The characters of which every match of a registered pattern holds at
    least one. *)
Definition trigger (c : ascii) : bool := one_of ".@:=-" c.

Definition not_whitespace (c : ascii) : bool := negb (is_whitespace c).

Definition not_bracket (c : ascii) : bool := negb (one_of "[]" c).

(** What is used of a placeholder: it opens and closes with a bracket and
    holds no trigger character. *)
Definition bracketed (R : text) : bool :=
  match R, rev R with
  | "["%char :: _, "]"%char :: _ => forallb (fun c => negb (trigger c)) R
  | _, _ => false
  end.

(** The keywords that the spec lists. *)
Definition spec_keywords : list text :=
  map lit [ "api_key"; "api-key"; "access_token"; "access-token";
            "secret"; "password"; "auth" ]%string.

(** The keywords that the pattern accepts. *)
Definition secret_keywords : list text :=
  map lit [ "api_key"; "api-key"; "apikey";
            "access_token"; "access-token"; "accesstoken";
            "secret"; "password"; "auth" ]%string.

(** A keyword of [keywords] in any case, whitespace, [:] or [=],
    whitespace, and a token of 16 or more characters. *)
Definition secret_shape (keywords : list text) (w : text) : Prop :=
  exists kw ws1 sep ws2 tok,
    w = kw ++ ws1 ++ sep :: ws2 ++ tok /\
    In (map to_lower kw) keywords /\
    Forall (fun c => is_whitespace c = true) ws1 /\
    one_of ":=" sep = true /\
    Forall (fun c => is_whitespace c = true) ws2 /\
    Forall (fun c => token_char c = true) tok /\
    16 <= length tok.

(** ** Definitions used to state further properties of the chunker *)

(** The characters of a list of tokens, counting one separator after each
    token. *)
Definition weight (ws : list text) : nat :=
  fold_right (fun w acc => S (length w) + acc) 0 ws.

(** ** Definitions used to state further properties of the sanitizer *)

(** One to three digits. *)
Definition octet (d : text) : Prop :=
  Forall (fun c => is_digit c = true) d /\ 1 <= length d <= 3.

(** Four groups of one to three digits, with dots between them. *)
Definition ipv4_shape (w : text) : Prop :=
  exists a b c d,
    w = a ++ "."%char :: b ++ "."%char :: c ++ "."%char :: d /\
    octet a /\ octet b /\ octet c /\ octet d.

(** Two hexadecimal digits and a colon or a hyphen. *)
Definition mac_group (g : text) : Prop :=
  exists x y s,
    g = [x; y; s] /\ hex x = true /\ hex y = true /\ one_of ":-" s = true.

(** Five such groups and two more hexadecimal digits. *)
Definition mac_shape (w : text) : Prop :=
  exists groups x y,
    w = List.concat groups ++ [x; y] /\
    length groups = 5 /\ Forall mac_group groups /\
    hex x = true /\ hex y = true.

(** A local part, [@], a domain, a dot and a top-level label of two or
    more characters. *)
Definition email_shape (w : text) : Prop :=
  exists loc dom tld,
    w = loc ++ "@"%char :: dom ++ "."%char :: tld /\
    Forall (fun c => email_local c = true) loc /\ 1 <= length loc /\
    Forall (fun c => email_domain c = true) dom /\ 1 <= length dom /\
    Forall (fun c => email_tld c = true) tld /\ 2 <= length tld.

(** A bound on the number of rounds. *)
Definition within (hi : option nat) (n : nat) : Prop :=
  match hi with
  | Some h => n <= h
  | None => True
  end.

(** The pattern has no [\b]: whether it matches a word does not depend on
    what stands around the word. *)
Fixpoint context_free (r : regex) : bool :=
  match r with
  | Empty | Class _ => true
  | Boundary => false
  | Cat a b | Alt a b => context_free a && context_free b
  | Repeat _ _ a => context_free a
  end.

(** The pattern begins with [\b], and ends with it. *)
Fixpoint starts_with_boundary (r : regex) : bool :=
  match r with
  | Boundary => true
  | Cat a _ => starts_with_boundary a
  | Alt a b => starts_with_boundary a && starts_with_boundary b
  | Empty | Class _ | Repeat _ _ _ => false
  end.

Fixpoint ends_with_boundary (r : regex) : bool :=
  match r with
  | Boundary => true
  | Cat _ b => ends_with_boundary b
  | Alt a b => ends_with_boundary a && ends_with_boundary b
  | Empty | Class _ | Repeat _ _ _ => false
  end.

Definition delimited (r : regex) : bool :=
  starts_with_boundary r && ends_with_boundary r.

(** The spans stand in order: each is non-empty and begins at [cursor],
    where the one before it ended, or later; the last ends by [limit]. *)
Fixpoint in_order (cursor : nat) (spans : list (nat * nat)) (limit : nat)
  : Prop :=
  match spans with
  | [] => cursor <= limit
  | (b, e) :: rest => cursor <= b /\ b < e /\ in_order e rest limit
  end.

(** What the substitution writes for the text from a position on: the
    replacement for a match, the character itself otherwise. *)
Fixpoint emit (r : regex) (repl : text) (skip : nat) (prev : option ascii)
         (s : text) : text :=
  match skip with
  | S k =>
      match s with
      | [] => []
      | c :: t => emit r repl k (Some c) t
      end
  | 0 =>
      match match_here r (prev, s) with
      | Some (_, s') =>
          repl ++
          match s with
          | [] => []
          | c :: t => emit r repl (pred (length s - length s')) (Some c) t
          end
      | None =>
          match s with
          | [] => []
          | c :: t => c :: emit r repl 0 (Some c) t
          end
      end
  end.

(** ** The script: [main] of [01_chunk_and_clean.py] *)

Module Pipeline.

Definition CHUNK_SIZE : Z := 500.
Definition OVERLAP : Z := 50.

(** [str.lower] on one character. *)
Definition lower_char (c : ascii) : ascii :=
  if is_upper c || between 192 214 c || between 216 222 c
  then ascii_of_N (code c + 32) else c.

Definition lower (s : text) : text := map lower_char s.

(** [s.endswith(suffix)] *)
Definition endswith (s suffix : text) : bool :=
  starts_with (rev suffix) (rev s).

(** [filename.lower().endswith(('.txt', '.log', '.md', '.json'))] *)
Definition is_text_file (filename : text) : bool :=
  existsb (endswith (lower filename))
          (map lit [".txt"; ".log"; ".md"; ".json"]%string).

(** [s.strip()] *)
Fixpoint lstrip (s : text) : text :=
  match s with
  | [] => []
  | c :: t => if is_whitespace c then lstrip t else s
  end.

Definition strip (s : text) : text := rev (lstrip (rev (lstrip s))).

Definition quote : ascii := "034"%char.
Definition backslash : ascii := "092"%char.
Definition newline : ascii := "010"%char.

Definition hex_digit (n : N) : ascii :=
  if (n <? 10)%N then ascii_of_N (48 + n) else ascii_of_N (87 + n).

(** One character of a string as [json.dumps] writes it, with
    [ensure_ascii] in force. *)
Definition json_escape (c : ascii) : text :=
  if is_char quote c then [backslash; quote]
  else if is_char backslash c then [backslash; backslash]
  else if is_char newline c then [backslash; "n"%char]
  else if is_char "013"%char c then [backslash; "r"%char]
  else if is_char "009"%char c then [backslash; "t"%char]
  else if is_char "008"%char c then [backslash; "b"%char]
  else if is_char "012"%char c then [backslash; "f"%char]
  else if between 32 126 c then [c]
  else [backslash; "u"%char; "0"%char; "0"%char;
        hex_digit (code c / 16); hex_digit (code c mod 16)].

Definition json_string (s : text) : text :=
  quote :: flat_map json_escape s ++ [quote].

(** [json.dumps({"source": filename, "text": chunk})] *)
Definition json_record (filename chunk : text) : text :=
  lit "{" ++ json_string (lit "source") ++ lit ": " ++ json_string filename
  ++ lit ", " ++ json_string (lit "text") ++ lit ": " ++ json_string chunk
  ++ lit "}".

(** What [main] keeps track of: the text written to the output file and
    the two counters. *)
Record report : Type :=
  { written : text; total_files : nat; total_chunks : nat }.

(** A file of the input directory: its name and what reading it gives,
    [None] when opening or reading it raises. *)
Definition file : Type := (text * option text)%type.

(** The body of [for chunk in chunks]. *)
Definition write_chunk (filename : text) (st : report) (chunk : text)
  : report :=
  {| written := written st ++ json_record filename chunk ++ [newline];
     total_files := total_files st;
     total_chunks := S (total_chunks st) |}.

(** The body of [for filename in files]; an exception ends the turn of
    the file. *)
Definition process_file (st : report) (f : file) : report :=
  let (filename, read) := f in
  if negb (is_text_file filename) then st
  else
    match read with
    | None => st
    | Some raw_content =>
        match strip raw_content with
        | [] => st
        | _ :: _ =>
            let clean_content := clean_text raw_content in
            match create_chunks clean_content CHUNK_SIZE OVERLAP with
            | ValueError => st
            | Returned chunks =>
                let st' := fold_left (write_chunk filename) chunks st in
                {| written := written st';
                   total_files := S (total_files st');
                   total_chunks := total_chunks st' |}
            end
        end
    end.

Definition main (files : list file) : report :=
  fold_left process_file files
            {| written := []; total_files := 0; total_chunks := 0 |}.

End Pipeline.

Import Pipeline.

(** ** Definitions used to state the properties of the script *)

(** The file is taken: its name has one of the endings, it can be read and
    it holds more than whitespace. *)
Definition taken (f : file) : bool :=
  is_text_file (fst f) &&
  match snd f with
  | Some raw => negb (forallb is_whitespace raw)
  | None => false
  end.

(** The chunks of a text with the parameters of the script. *)
Definition chunks_of (raw : text) : list text :=
  match create_chunks (clean_text raw) CHUNK_SIZE OVERLAP with
  | Returned chunks => chunks
  | ValueError => []
  end.

(** The records [(source, text)] that a file gives. *)
Definition records_of (f : file) : list (text * text) :=
  match snd f with
  | Some raw => if taken f then map (pair (fst f)) (chunks_of raw) else []
  | None => []
  end.

Definition record_line (rec : text * text) : text :=
  json_record (fst rec) (snd rec) ++ [newline].

Definition printable (c : ascii) : bool := between 32 126 c.

Definition not_space (c : ascii) : bool := negb (is_char " " c).

(** Reading back what [json_string] writes, up to the closing quote: the
    text read and what follows the quote. *)
Definition unhex (c : ascii) : N :=
  if is_digit c then (code c - 48)%N else (code c - 87)%N.

Fixpoint json_read (s : text) : option (text * text) :=
  match s with
  | [] => None
  | c :: t =>
      if is_char quote c then Some ([], t)
      else if is_char backslash c then
        match t with
        | [] => None
        | e :: t' =>
            if is_char "u"%char e then
              match t' with
              | _ :: _ :: h :: l :: t'' =>
                  option_map
                    (fun p => (ascii_of_N (16 * unhex h + unhex l) :: fst p,
                               snd p))
                    (json_read t'')
              | _ => None
              end
            else
              option_map
                (fun p =>
                   ((if is_char "n"%char e then newline
                     else if is_char "r"%char e then "013"%char
                     else if is_char "t"%char e then "009"%char
                     else if is_char "b"%char e then "008"%char
                     else if is_char "f"%char e then "012"%char
                     else e) :: fst p, snd p))
                (json_read t')
        end
      else option_map (fun p => (c :: fst p, snd p)) (json_read t)
  end.

(** Arithmetic over lengths of texts. *)
Ltac text_lia := simpl fst in *; simpl snd in *; lia.

(** ** Sample runs *)

Example split_demo :
  split (lit "  alpha	beta
gamma ") = [lit "alpha"; lit "beta"; lit "gamma"].
Proof. reflexivity. Qed.

Example range_demo : py_range 0 1000 450 = Returned [0; 450; 900]%Z.
Proof. reflexivity. Qed.

Example range_neg : py_range 0 5 (-2) = Returned [].
Proof. reflexivity. Qed.

Example slice_demo : py_slice [1;2;3;4;5] 0 (-1) = [1;2;3;4].
Proof. reflexivity. Qed.

Example sub_greedy :
  sub (Repeat 1 None (chr "x")) (lit "-") (lit "abxxd") = lit "ab-d".
Proof. reflexivity. Qed.

Example clean_scenario :
  clean_text (lit "Login failed for admin@corp.local from 10.0.0.5 using api_key=AAAAAAAAAAAAAAAAAAAA")
  = lit "Login failed for [REDACTED_EMAIL] from [REDACTED_IP] using [REDACTED_SECRET]".
Proof. vm_compute. reflexivity. Qed.

Example clean_raw_log :
  clean_text (lit "Error at 2023-10-12 08:00:00. Host 192.168.0.55 failed to connect. User admin@company.com attempted login with api_key=sk-abC12345678901234567890abcdef. MAC: 00:1B:44:11:3A:B7.")
  = lit "Error at 2023-10-12 08:00:00. Host [REDACTED_IP] failed to connect. User [REDACTED_EMAIL] attempted login with [REDACTED_SECRET]. MAC: [REDACTED_MAC].".
Proof. vm_compute. reflexivity. Qed.

(** The assertions of the self-test of [sanitizer.py]. *)
Example clean_raw_log_assertions :
  let clean_log :=
    clean_text (lit "Error at 2023-10-12 08:00:00. Host 192.168.0.55 failed to connect. User admin@company.com attempted login with api_key=sk-abC12345678901234567890abcdef. MAC: 00:1B:44:11:3A:B7.") in
  contains (lit "192.168.0.55") clean_log = false /\
  contains (lit "admin@company.com") clean_log = false /\
  contains (lit "sk-abC") clean_log = false.
Proof. vm_compute. auto. Qed.

(** ** Facts about [split] and [join] *)

Section SplitJoin.

Lemma split_tokens (s : text) : Forall token (split s).
Proof.
  induction s as [|c t IH]; simpl; [constructor|].
  destruct (is_whitespace c) eqn:Hc; [exact IH|].
  destruct (at_gap t) eqn:Hg.
  - constructor; [|exact IH].
    split; [discriminate|]. constructor; [exact Hc|constructor].
  - destruct (split t) as [|w ws] eqn:Hs.
    + constructor; [|constructor].
      split; [discriminate|]. constructor; [exact Hc|constructor].
    + inversion IH as [|? ? [Hw1 Hw2] Hws]; subst.
      constructor; [|exact Hws].
      split; [discriminate|]. constructor; assumption.
Qed.

Lemma split_nil_iff (s : text) :
  split s = [] <-> forallb is_whitespace s = true.
Proof.
  induction s as [|c t IH]; simpl; [tauto|].
  destruct (is_whitespace c); simpl; [exact IH|].
  split; [|discriminate].
  destruct (at_gap t); [discriminate|].
  destruct (split t); discriminate.
Qed.

Lemma split_token_app (w r : text) :
  token w -> at_gap r = true -> split (w ++ r) = w :: split r.
Proof.
  intros [Hne Hw]. revert Hne.
  induction Hw as [|c w' Hc Hw' IH]; intros Hne Hr; [congruence|].
  simpl. rewrite Hc.
  destruct w' as [|d w''].
  - simpl. rewrite Hr. reflexivity.
  - assert (Hd : is_whitespace d = false) by (inversion Hw'; assumption).
    rewrite IH by (discriminate || assumption).
    simpl. rewrite Hd. reflexivity.
Qed.

Lemma split_join (ws : list text) :
  Forall token ws -> split (join (lit " ") ws) = ws.
Proof.
  induction 1 as [|w rest Hw Hrest IH]; [reflexivity|].
  destruct rest as [|w2 rest'].
  - simpl. rewrite <- (app_nil_r w) at 1.
    rewrite split_token_app by (assumption || reflexivity).
    reflexivity.
  - change (join (lit " ") (w :: w2 :: rest'))
      with (w ++ lit " " ++ join (lit " ") (w2 :: rest')).
    rewrite split_token_app by (assumption || reflexivity).
    change (split (lit " " ++ join (lit " ") (w2 :: rest')))
      with (split (join (lit " ") (w2 :: rest'))).
    rewrite IH. reflexivity.
Qed.

(** Every character of a joined list of tokens is a space or is not
    whitespace at all. *)
Lemma join_chars (ws : list text) :
  Forall token ws ->
  Forall (fun c => c = " "%char \/ is_whitespace c = false)
         (join (lit " ") ws).
Proof.
  induction 1 as [|w rest [_ Hw] Hrest IH]; [constructor|].
  assert (Hw' : Forall (fun c => c = " "%char \/ is_whitespace c = false) w).
  { eapply Forall_impl; [|exact Hw]. intros; right; assumption. }
  destruct rest as [|w2 rest']; [exact Hw'|].
  change (join (lit " ") (w :: w2 :: rest'))
    with (w ++ " "%char :: join (lit " ") (w2 :: rest')).
  apply Forall_app; split; [exact Hw'|].
  constructor; [left; reflexivity|exact IH].
Qed.

Lemma join_head (ws : list text) (c : ascii) :
  Forall token ws -> hd_error (join (lit " ") ws) = Some c ->
  is_whitespace c = false.
Proof.
  intros Hws. destruct Hws as [|w rest [Hne Hw] Hrest]; [discriminate|].
  destruct w as [|d w']; [congruence|].
  inversion Hw; subst.
  destruct rest; simpl; intros [= <-]; assumption.
Qed.

Lemma last_app_r {A : Type} (a b : list A) (d : A) :
  b <> [] -> last (a ++ b) d = last b d.
Proof.
  intros Hb. destruct (exists_last Hb) as [b0 [z ->]].
  rewrite app_assoc, !last_last. reflexivity.
Qed.

Lemma join_nonempty (ws : list text) :
  Forall token ws -> ws <> [] -> join (lit " ") ws <> [].
Proof.
  intros Hws Hne. destruct Hws as [|w rest [Hw _] _]; [congruence|].
  destruct w; [congruence|]. destruct rest; discriminate.
Qed.

Lemma join_last (ws : list text) (d : ascii) :
  Forall token ws -> ws <> [] ->
  is_whitespace (last (join (lit " ") ws) d) = false.
Proof.
  induction 1 as [|w rest [Hne Hw] Hrest IH]; [congruence|]; intros _.
  destruct rest as [|w2 rest'].
  - simpl join. destruct (exists_last Hne) as [w0 [z ->]].
    rewrite last_last. apply Forall_app in Hw. destruct Hw as [_ Hz].
    inversion Hz; assumption.
  - change (join (lit " ") (w :: w2 :: rest'))
      with (w ++ lit " " ++ join (lit " ") (w2 :: rest')).
    assert (Hn : join (lit " ") (w2 :: rest') <> [])
      by (apply join_nonempty; [assumption|discriminate]).
    rewrite app_assoc, last_app_r by exact Hn.
    apply IH. discriminate.
Qed.

(** A joined list of [k] tokens has at least [2k - 1] characters. *)
Lemma join_length (ws : list text) :
  Forall token ws -> 2 * length ws <= S (length (join (lit " ") ws)).
Proof.
  induction 1 as [|w rest [Hne Hw] Hrest IH]; [simpl; lia|].
  destruct w as [|c w']; [congruence|].
  destruct rest as [|w2 rest']; [simpl; lia|].
  change (join (lit " ") ((c :: w') :: w2 :: rest'))
    with ((c :: w') ++ " "%char :: join (lit " ") (w2 :: rest')).
  rewrite length_app. simpl length in *. lia.
Qed.

End SplitJoin.

(** ** Facts about the loop of [create_chunks] *)

Section Windows.

Lemma window_count_lt (n s k : nat) :
  0 < s -> (k < window_count n s <-> k * s < n).
Proof.
  intros Hs. unfold window_count.
  pose proof (Nat.div_mod_eq (n + s - 1) s) as E.
  pose proof (Nat.mod_upper_bound (n + s - 1) s ltac:(lia)) as U.
  split; intros H; nia.
Qed.

Lemma fold_loop_body (words : list text) (cs : Z) (l : list Z)
      (acc : list text) :
  fold_left (loop_body words cs) l acc
  = acc ++ filter long (map (window words cs) l).
Proof.
  revert acc. induction l as [|i l IH]; intros acc; simpl.
  - rewrite app_nil_r. reflexivity.
  - rewrite IH. unfold loop_body, long.
    destruct (50 <? length (window words cs i)).
    + rewrite <- app_assoc. reflexivity.
    + reflexivity.
Qed.

Lemma py_slice_window {A : Type} (l : list A) (i cs : Z) :
  (0 <= i)%Z -> (0 < cs)%Z ->
  py_slice l i (i + cs) = firstn (Z.to_nat cs) (skipn (Z.to_nat i) l).
Proof.
  intros Hi Hcs. unfold py_slice, slice_bound.
  destruct (Z.ltb_spec i 0); [lia|].
  destruct (Z.ltb_spec (i + cs) 0); [lia|].
  set (n := Z.of_nat (length l)).
  destruct (Z_le_gt_dec i n) as [Hin|Hin].
  - rewrite (Z.min_l i n) by lia.
    destruct (Z_le_gt_dec (i + cs) n) as [Hc|Hc].
    + rewrite Z.min_l by lia. f_equal. lia.
    + rewrite Z.min_r by lia.
      rewrite !firstn_all2; [reflexivity| |];
        rewrite length_skipn; subst n; lia.
  - rewrite !Z.min_r by lia. rewrite Z.sub_diag. simpl.
    rewrite skipn_all2 by (subst n; lia).
    rewrite firstn_nil. reflexivity.
Qed.

Lemma py_range_stride (n : nat) (step : Z) :
  (0 < step)%Z ->
  py_range 0 (Z.of_nat n) step
  = Returned (map (fun k => Z.of_nat (k * Z.to_nat step))
                  (seq 0 (window_count n (Z.to_nat step)))).
Proof.
  intros Hs. unfold py_range, range_len.
  destruct (Z.eqb_spec step 0); [lia|].
  destruct (Z.ltb_spec 0 step); [|lia].
  f_equal.
  assert (E : Z.to_nat (Z.max 0 ((Z.of_nat n - 0 + step - 1) / step))
              = window_count n (Z.to_nat step)).
  { unfold window_count.
    rewrite Z.max_r by (apply Z.div_pos; lia).
    replace (Z.of_nat n - 0 + step - 1)%Z
      with (Z.of_nat (n + Z.to_nat step - 1)) by lia.
    replace step with (Z.of_nat (Z.to_nat step)) at 2 by lia.
    rewrite <- Nat2Z.inj_div, Nat2Z.id. reflexivity. }
  rewrite E. apply map_ext. intros k. lia.
Qed.

(** With a positive stride and a positive size the loop computes the
    windows at the multiples of the stride and keeps the long ones. *)
Lemma create_chunks_windows (t : text) (cs ov : Z) :
  (0 < cs)%Z -> (ov < cs)%Z ->
  create_chunks t cs ov
  = Returned
      (filter long
         (map (fun k => join (lit " ")
                          (tokens_from (split t) (Z.to_nat cs)
                                       (k * Z.to_nat (cs - ov))))
              (seq 0 (window_count (length (split t))
                                   (Z.to_nat (cs - ov)))))).
Proof.
  intros Hcs Hov. unfold create_chunks.
  destruct (split t) as [|w ws] eqn:Hw.
  - unfold window_count. simpl length.
    rewrite Nat.div_small by lia. reflexivity.
  - rewrite py_range_stride by lia.
    rewrite fold_loop_body, map_map. simpl app. do 2 f_equal.
    apply map_ext. intros k. unfold window, tokens_from.
    rewrite py_slice_window by (try apply Nat2Z.is_nonneg; lia).
    rewrite Nat2Z.id. reflexivity.
Qed.

Lemma tokens_from_nth (words : list text) (size i j : nat) :
  j < size ->
  nth_error (tokens_from words size i) j = nth_error words (i + j).
Proof.
  intros Hj. unfold tokens_from.
  rewrite nth_error_firstn.
  destruct (Nat.ltb_spec j size); [|lia].
  apply nth_error_skipn.
Qed.

Lemma Forall_slice {A : Type} (P : A -> Prop) (l : list A) (n i : nat) :
  Forall P l -> Forall P (firstn n (skipn i l)).
Proof.
  intros H.
  rewrite <- (firstn_skipn i l) in H. apply Forall_app in H.
  destruct H as [_ H].
  rewrite <- (firstn_skipn n (skipn i l)) in H. apply Forall_app in H.
  tauto.
Qed.

Lemma tokens_from_tokens (t : text) (size i : nat) :
  Forall token (tokens_from (split t) size i).
Proof. apply Forall_slice, split_tokens. Qed.

End Windows.

(** ** The chunker: the stated properties *)

Lemma long_join (ws : list text) :
  Forall token ws -> 26 <= length ws -> long (join (lit " ") ws) = true.
Proof.
  intros Hws Hlen. pose proof (join_length ws Hws) as H.
  unfold long. apply Nat.ltb_lt. lia.
Qed.

(** C3, as stated, fails: with [overlap > chunk_size] no error is signalled,
    and with [overlap = chunk_size] none is signalled for a text without
    tokens. *)
Lemma create_chunks_no_eager_validation :
  (5 <= 10)%Z /\ create_chunks (lit "hello") 5 10 = Returned [] /\
  (5 <= 5)%Z /\ create_chunks (lit "  ") 5 5 = Returned [].
Proof. repeat split; try lia; reflexivity. Qed.

(** C3, amended: [create_chunks] has no validation of its parameters; the
    only error it signals is the [ValueError] of [range] with a zero step,
    which arises inside the call, exactly when [overlap = chunk_size] and
    the text has at least one token. *)
Theorem create_chunks_error_iff (t : text) (cs ov : Z) :
  create_chunks t cs ov = ValueError <-> cs = ov /\ split t <> [].
Proof.
  unfold create_chunks, py_range.
  destruct (split t) as [|w ws].
  - split; [discriminate|]. intros [_ H]. congruence.
  - destruct (Z.eqb_spec (cs - ov) 0) as [E|E].
    + split; [|reflexivity]. intros _. split; [lia|discriminate].
    + split; [discriminate|]. intros [H _]. lia.
Qed.

(** C9: with [overlap = chunk_size], [create_chunks] raises an error for
    every text that holds a token and returns no chunk for a text that is
    empty or all whitespace; with [overlap > chunk_size] it returns no
    chunk and no error, whatever the text. *)
Theorem create_chunks_degenerate_stride (t : text) (cs ov : Z) :
  (ov = cs -> forallb is_whitespace t = false ->
   create_chunks t cs ov = ValueError) /\
  (ov = cs -> forallb is_whitespace t = true ->
   create_chunks t cs ov = Returned []) /\
  ((cs < ov)%Z -> create_chunks t cs ov = Returned []).
Proof.
  split; [|split].
  - intros -> Hw. unfold create_chunks, py_range.
    destruct (split t) as [|w ws] eqn:Hs.
    + apply split_nil_iff in Hs. congruence.
    + rewrite Z.sub_diag. reflexivity.
  - intros -> Hw. apply split_nil_iff in Hw.
    unfold create_chunks. rewrite Hw. reflexivity.
  - intros Hlt. unfold create_chunks, py_range, range_len.
    destruct (split t) as [|w ws]; [reflexivity|].
    destruct (Z.eqb_spec (cs - ov) 0); [lia|].
    destruct (Z.ltb_spec 0 (cs - ov)); [lia|].
    set (len := Z.of_nat (length (w :: ws))).
    assert (Hn : (0 < len)%Z) by (subst len; simpl length; lia).
    assert (Hq : ((0 - len - (cs - ov) - 1) / - (cs - ov) < 1)%Z)
      by (apply Z.div_lt_upper_bound; lia).
    rewrite Z.max_l by lia. reflexivity.
Qed.

Lemma create_chunks_degenerate_stride_witness :
  create_chunks (lit "a b") 5 5 = ValueError /\
  create_chunks (lit "  ") 5 5 = Returned [] /\
  create_chunks (lit "a b") 5 7 = Returned [].
Proof.
  split; [|split].
  - apply (proj1 (create_chunks_degenerate_stride (lit "a b") 5 5));
      reflexivity.
  - apply (proj1 (proj2 (create_chunks_degenerate_stride (lit "  ") 5 5)));
      reflexivity.
  - apply (proj2 (proj2 (create_chunks_degenerate_stride (lit "a b") 5 7))).
    reflexivity.
Defined.

(** C5, as stated, fails: three tokens with [chunk_size = 4] and
    [overlap = 2] are fewer than a window, and two chunks are produced. *)
Lemma create_chunks_short_input_two_chunks :
  (0 <= 2 < 4)%Z /\
  Z.of_nat (length (split three_long_words)) = 3%Z /\
  create_chunks three_long_words 4 2
  = Returned [three_long_words; repeat "c"%char 51].
Proof. repeat split; try lia; vm_compute; reflexivity. Qed.

(** C5, amended: when the text has at most [chunk_size - overlap] tokens
    (at most one stride), there is one window, all the tokens joined by
    single spaces; it is the only chunk when it is longer than 50
    characters, and there is no chunk otherwise. *)
Theorem create_chunks_within_one_stride (t : text) (cs ov : Z) :
  (0 <= ov < cs)%Z ->
  (Z.of_nat (length (split t)) <= cs - ov)%Z ->
  create_chunks t cs ov
  = Returned (if long (join (lit " ") (split t))
              then [join (lit " ") (split t)] else []).
Proof.
  intros Hv Hn. rewrite create_chunks_windows by lia.
  set (s := Z.to_nat (cs - ov)). set (n := length (split t)).
  assert (Hs : 0 < s /\ n <= s) by (subst s n; lia).
  destruct (Nat.eq_dec n 0) as [E0|E0].
  - subst n. apply length_zero_iff_nil in E0. rewrite E0.
    unfold window_count. simpl length.
    rewrite Nat.div_small by lia. reflexivity.
  - assert (E1 : window_count n s = 1).
    { assert (H1 : 1 <= window_count n s).
      { pose proof (proj2 (window_count_lt n s 0 ltac:(lia)) ltac:(lia)).
        lia. }
      assert (H2 : ~ 1 < window_count n s).
      { intros H. apply window_count_lt in H; lia. }
      lia. }
    rewrite E1. cbn [seq map]. unfold tokens_from.
    rewrite Nat.mul_0_l, skipn_0, firstn_all2 by (fold n; lia).
    simpl filter. destruct (long _); reflexivity.
Qed.

Lemma create_chunks_within_one_stride_witness :
  create_chunks three_long_words 5 2 = Returned [three_long_words].
Proof.
  apply (create_chunks_within_one_stride three_long_words 5 2);
    [lia | vm_compute; discriminate].
Defined.

Lemma firstn_plus {A : Type} (a b : nat) (l : list A) :
  firstn (a + b) l = firstn a l ++ firstn b (skipn a l).
Proof.
  revert l. induction a as [|a IH]; intros l; [reflexivity|].
  destruct l as [|x l]; simpl.
  - rewrite firstn_nil. reflexivity.
  - rewrite IH. reflexivity.
Qed.

Lemma blocks_concat {A : Type} (l : list A) (s m : nat) :
  List.concat (map (fun k => firstn s (skipn (k * s) l)) (seq 0 m))
  = firstn (m * s) l.
Proof.
  induction m as [|m IH]; [reflexivity|].
  rewrite seq_S, map_app, concat_app, IH. simpl.
  rewrite app_nil_r, <- firstn_plus. f_equal. lia.
Qed.

(** C6, as stated, fails: the tokens of a short text are in no chunk. *)
Lemma create_chunks_drops_short_text :
  (0 <= 50 < 500)%Z /\
  split (lit "hello world") = [lit "hello"; lit "world"] /\
  create_chunks (lit "hello world") 500 50 = Returned [].
Proof. repeat split; try lia; reflexivity. Qed.

(** C6, amended: every token lies in the window that starts at the last
    multiple of the stride at or before it.  A window that holds the token
    has it at its place, and it is among the chunks exactly when it is
    longer than 50 characters.  A token all of whose windows have at most
    50 characters is in no chunk: every chunk is then a window that does
    not hold it.  When the length filter drops no window, there is one
    chunk for each window and the chunks, each cut after its first
    [stride] tokens, give the tokens of the text back in order. *)
Theorem create_chunks_coverage (t : text) (cs ov : Z) :
  (0 <= ov < cs)%Z ->
  let stride := Z.to_nat (cs - ov) in
  let win := fun k => tokens_from (split t) (Z.to_nat cs) (k * stride) in
  exists chunks,
    create_chunks t cs ov = Returned chunks /\
    (forall j w,
        nth_error (split t) j = Some w ->
        let holds := fun k => k * stride <= j < k * stride + Z.to_nat cs in
        holds (j / stride) /\
        (forall k,
            holds k ->
            nth_error (split (join (lit " ") (win k))) (j - k * stride)
            = Some w /\
            (In (join (lit " ") (win k)) chunks <->
             long (join (lit " ") (win k)) = true)) /\
        ((forall k, holds k -> long (join (lit " ") (win k)) = false) ->
         forall chunk,
           In chunk chunks ->
           exists k, chunk = join (lit " ") (win k) /\ ~ holds k)) /\
    ((forall k,
         k < window_count (length (split t)) stride ->
         long (join (lit " ") (win k)) = true) ->
     length chunks = window_count (length (split t)) stride /\
     List.concat (map (fun chunk => firstn stride (split chunk)) chunks)
     = split t).
Proof.
  intros Hv stride win. eexists.
  split; [apply create_chunks_windows; lia|].
  assert (Hs : 0 < stride <= Z.to_nat cs) by (subst stride; lia).
  split.
  - intros j w Hj holds.
    assert (Hlt : j < length (split t)).
    { apply nth_error_Some. congruence. }
    split; [|split].
    + subst holds. cbn beta.
      pose proof (Nat.div_mod_eq j stride) as E.
      pose proof (Nat.mod_upper_bound j stride ltac:(lia)) as U. nia.
    + intros k Hk. subst holds. cbn beta in Hk. split.
      * subst win. cbn beta.
        rewrite split_join by apply tokens_from_tokens.
        rewrite tokens_from_nth by lia.
        replace (k * stride + (j - k * stride)) with j by lia. exact Hj.
      * split.
        -- intros H. apply filter_In in H. exact (proj2 H).
        -- intros H. apply filter_In. split; [|exact H].
           apply in_map_iff. exists k. split; [reflexivity|].
           apply in_seq. split; [lia|]. simpl.
           apply window_count_lt; [lia|]. fold stride. lia.
    + intros Hshort chunk Hc. apply filter_In in Hc.
      destruct Hc as [Hc Hlong].
      apply in_map_iff in Hc. destruct Hc as (k & <- & _).
      exists k. split; [reflexivity|]. intros Hk.
      fold stride in Hlong.
      change (long (join (lit " ") (win k)) = true) in Hlong.
      rewrite (Hshort k Hk) in Hlong. discriminate.
  - intros Hall.
    rewrite forallb_filter_id.
    + split; [rewrite length_map, length_seq; reflexivity|].
      rewrite map_map.
      rewrite (map_ext _ (fun k => firstn stride (skipn (k * stride) (split t)))).
      * rewrite blocks_concat. apply firstn_all2.
        pose proof (window_count_lt (length (split t)) stride
                      (window_count (length (split t)) stride)
                      ltac:(lia)) as H.
        destruct (Nat.lt_ge_cases
                    (window_count (length (split t)) stride * stride)
                    (length (split t))) as [Hlt|Hge]; [|exact Hge].
        apply H in Hlt. lia.
      * intros k. rewrite split_join by apply tokens_from_tokens.
        unfold tokens_from. rewrite firstn_firstn. f_equal. lia.
    + apply forallb_forall. intros c Hc.
      apply in_map_iff in Hc. destruct Hc as (k & <- & Hk).
      apply in_seq in Hk. apply Hall. fold stride in Hk. lia.
Qed.

Lemma create_chunks_coverage_witness :
  exists chunks,
    create_chunks three_long_words 2 1 = Returned chunks /\
    In (repeat "c"%char 51) chunks /\
    List.concat (map (fun chunk => firstn 1 (split chunk)) chunks)
    = split three_long_words.
Proof.
  destruct (create_chunks_coverage three_long_words 2 1 ltac:(lia))
    as (chunks & E & H & Hall).
  exists chunks. split; [exact E|]. split.
  - destruct (H 2 (repeat "c"%char 51) eq_refl) as (_ & HB & _).
    destruct (HB 2 ltac:(vm_compute; lia)) as [_ Hiff].
    apply Hiff. vm_compute. reflexivity.
  - apply Hall. intros k Hk.
    destruct k as [|[|[|k]]]; try (vm_compute; reflexivity).
    exfalso. vm_compute in Hk. lia.
Defined.

(** C7: for valid parameters the chunks are the windows that start at the
    token offsets [0], [stride], [2 * stride], ... below the number of
    tokens, with [stride = chunk_size - overlap], those of more than 50
    characters being kept; a text of 1000 words, with [chunk_size = 500]
    and [overlap = 50], gives exactly three chunks, the second from word
    450 and the third from word 900, which holds the last 100 words. *)
Theorem create_chunks_windowing (t : text) :
  (forall cs ov,
      (0 <= ov < cs)%Z ->
      create_chunks t cs ov
      = Returned
          (filter long
             (map (fun k => join (lit " ")
                              (tokens_from (split t) (Z.to_nat cs)
                                           (k * Z.to_nat (cs - ov))))
                  (seq 0 (window_count (length (split t))
                                       (Z.to_nat (cs - ov))))))) /\
  (length (split t) = 1000 ->
   create_chunks t 500 50
   = Returned [ join (lit " ") (tokens_from (split t) 500 0);
                join (lit " ") (tokens_from (split t) 500 450);
                join (lit " ") (tokens_from (split t) 500 900) ] /\
   tokens_from (split t) 500 900 = skipn 900 (split t) /\
   length (skipn 900 (split t)) = 100).
Proof.
  split.
  - intros cs ov Hv. apply create_chunks_windows; lia.
  - intros Hlen.
    assert (Hwin : forall i, i <= 900 ->
                   long (join (lit " ") (tokens_from (split t) 500 i)) = true).
    { intros i Hi. apply long_join; [apply tokens_from_tokens|].
      unfold tokens_from. rewrite length_firstn, length_skipn. lia. }
    split; [|split].
    + rewrite create_chunks_windows by lia. rewrite Hlen.
      change (Z.to_nat (500 - 50)) with 450.
      change (Z.to_nat 500) with 500.
      change (window_count 1000 450) with 3.
      cbn [seq map filter Nat.mul Nat.add].
      rewrite !Hwin by lia. reflexivity.
    + unfold tokens_from. apply firstn_all2. rewrite length_skipn. lia.
    + rewrite length_skipn. lia.
Qed.

Lemma create_chunks_windowing_witness :
  create_chunks thousand_words 500 50
  = Returned
      (filter long
         (map (fun k => join (lit " ")
                          (tokens_from (split thousand_words) (Z.to_nat 500)
                                       (k * Z.to_nat (500 - 50))))
              (seq 0 (window_count (length (split thousand_words))
                                   (Z.to_nat (500 - 50)))))) /\
  exists a b c, create_chunks thousand_words 500 50 = Returned [a; b; c].
Proof.
  destruct (create_chunks_windowing thousand_words) as [G H].
  split.
  - apply (G 500%Z 50%Z). lia.
  - destruct (H ltac:(vm_compute; reflexivity)) as [E _].
    do 3 eexists. exact E.
Defined.

(** C10: for valid parameters every chunk is the single-space join of a
    contiguous slice of the tokens of the text; its tokens are that slice,
    at most [chunk_size] of them; it is longer than 50 characters; it
    neither begins nor ends with whitespace and holds no newline and no
    tab. *)
Theorem create_chunks_shape (t : text) (cs ov : Z) :
  (0 <= ov < cs)%Z ->
  exists chunks,
    create_chunks t cs ov = Returned chunks /\
    forall chunk,
      In chunk chunks ->
      exists i,
        let slice := tokens_from (split t) (Z.to_nat cs) i in
        chunk = join (lit " ") slice /\
        split chunk = slice /\
        (Z.of_nat (length (split chunk)) <= cs)%Z /\
        50 < length chunk /\
        (forall c, hd_error chunk = Some c -> is_whitespace c = false) /\
        is_whitespace (last chunk " "%char) = false /\
        ~ In "010"%char chunk /\ ~ In "009"%char chunk.
Proof.
  intros Hv. eexists. split; [apply create_chunks_windows; lia|].
  intros chunk Hin. apply filter_In in Hin. destruct Hin as [Hin Hlong].
  apply in_map_iff in Hin. destruct Hin as [k [<- _]].
  exists (k * Z.to_nat (cs - ov)). cbn zeta.
  set (slice := tokens_from (split t) (Z.to_nat cs) (k * Z.to_nat (cs - ov))).
  fold slice in Hlong.
  assert (Htok : Forall token slice) by apply tokens_from_tokens.
  assert (Hsplit : split (join (lit " ") slice) = slice)
    by (apply split_join; exact Htok).
  assert (Hne : slice <> []).
  { intros E. rewrite E in Hlong. discriminate. }
  pose proof (join_chars _ Htok) as Hchars.
  rewrite Forall_forall in Hchars.
  repeat split.
  - exact Hsplit.
  - rewrite Hsplit. unfold slice, tokens_from.
    pose proof (firstn_le_length (Z.to_nat cs)
                  (skipn (k * Z.to_nat (cs - ov)) (split t))). lia.
  - apply Nat.ltb_lt. exact Hlong.
  - intros c. apply join_head. exact Htok.
  - apply join_last; assumption.
  - intros H. destruct (Hchars _ H); discriminate.
  - intros H. destruct (Hchars _ H); discriminate.
Qed.

Lemma create_chunks_shape_witness :
  exists chunks,
    create_chunks three_long_words 2 1 = Returned chunks /\
    exists chunk,
      In chunk chunks /\
      split chunk = tokens_from (split three_long_words) 2 0 /\
      50 < length chunk.
Proof.
  destruct (create_chunks_shape three_long_words 2 1 ltac:(lia))
    as (chunks & E & H).
  exists chunks. split; [exact E|].
  exists (join (lit " ") (tokens_from (split three_long_words) 2 0)).
  assert (Hin : In (join (lit " ") (tokens_from (split three_long_words) 2 0))
                   chunks).
  { pose proof E as E'. vm_compute in E'. injection E' as <-.
    left. reflexivity. }
  split; [exact Hin|].
  destruct (H _ Hin) as (i & _ & _ & _ & Hlen & _).
  split; [vm_compute; reflexivity|exact Hlen].
Defined.

Section MatcherFacts.

Lemma last_char_app (prev : option ascii) (u v : text) :
  last_char prev (u ++ v) = last_char (last_char prev u) v.
Proof. apply fold_left_app. Qed.

Lemma consumed_nil (st : state) : consumed st st [].
Proof. split; reflexivity. Qed.

Lemma consumed_trans (s1 s2 s3 : state) (u v : text) :
  consumed s1 s2 u -> consumed s2 s3 v -> consumed s1 s3 (u ++ v).
Proof.
  intros [E1 L1] [E2 L2]. split.
  - rewrite E1, E2, app_assoc. reflexivity.
  - rewrite L2, L1, last_char_app. reflexivity.
Qed.

Lemma consumed_unique (st st' : state) (u v : text) :
  consumed st st' u -> consumed st st' v -> u = v.
Proof.
  intros [E1 _] [E2 _]. rewrite E1 in E2.
  apply app_inv_tail in E2. exact E2.
Qed.

Lemma consumed_length (st st' : state) (w : text) :
  consumed st st' w -> length (snd st) = length w + length (snd st').
Proof. intros [E _]. rewrite E, length_app. reflexivity. Qed.

Lemma advances_consumed (st st' : state) (w : text) :
  consumed st st' w -> advances st st' = true -> w <> [].
Proof.
  intros Hc Ha ->. apply consumed_length in Hc.
  unfold advances in Ha. apply Nat.ltb_lt in Ha. simpl in Hc. lia.
Qed.

Lemma iterate_iff (step : state -> list state)
      (R : state -> state -> Prop) :
  (forall a b, In b (step a) <-> R a b) ->
  forall fuel lo hi st st',
    length (snd st) < fuel ->
    (In st' (iterate step fuel lo hi st) <-> Iter R lo hi st st').
Proof.
  intros HR. induction fuel as [|fuel IH]; intros lo hi st st' Hlen; [lia|].
  simpl. rewrite in_app_iff. split.
  - intros [H|H].
    + destruct (exhausted hi) eqn:E; [contradiction|].
      apply in_flat_map in H. destruct H as [mid [Hmid Hin]].
      apply filter_In in Hmid. destruct Hmid as [Hstep Hadv].
      apply Iter_more with (s2 := mid); try assumption.
      * apply HR. exact Hstep.
      * apply IH; [|exact Hin].
        unfold advances in Hadv. apply Nat.ltb_lt in Hadv. text_lia.
    + destruct (Nat.eqb_spec lo 0) as [->|]; [|contradiction].
      destruct H as [<-|[]]. constructor.
  - intros H. inversion H as [|? ? ? mid ? Hex Hstep Hadv Hrest]; subst.
    + right. left. reflexivity.
    + left. rewrite Hex. apply in_flat_map. exists mid. split.
      * apply filter_In. split; [apply HR; exact Hstep|exact Hadv].
      * apply IH; [|exact Hrest].
        unfold advances in Hadv. apply Nat.ltb_lt in Hadv. text_lia.
Qed.

(** The matcher finds exactly the matches. *)
Theorem run_denote (r : regex) (st st' : state) :
  In st' (run r st) <-> denote r st st'.
Proof.
  revert st st'. induction r as [|p| |a IHa b IHb|a IHa b IHb|lo hi a IHa];
    intros st st'; cbn [run denote].
  - split; [intros [<-|[]]; reflexivity|intros ->; left; reflexivity].
  - destruct st as [prev s]. simpl. destruct s as [|c t].
    + split; [contradiction|]. intros (c & t & E & _). discriminate.
    + destruct (p c) eqn:Hp.
      * split.
        -- intros [<-|[]]. exists c, t. auto.
        -- intros (c' & t' & [= <- <-] & _ & ->). left. reflexivity.
      * split; [contradiction|].
        intros (c' & t' & [= <- <-] & Hp' & _). congruence.
  - destruct (at_boundary st).
    + split; [intros [<-|[]]; auto|intros [-> _]; left; reflexivity].
    + split; [contradiction|]. intros [_ H]. discriminate.
  - rewrite in_flat_map. split.
    + intros (mid & Ha & Hb). exists mid. split; [apply IHa|apply IHb]; auto.
    + intros (mid & Ha & Hb). exists mid. split; [apply IHa|apply IHb]; auto.
  - rewrite in_app_iff, IHa, IHb. reflexivity.
  - apply iterate_iff; [exact IHa|text_lia].
Qed.

(** A property of the words read, established rule by rule. *)
Lemma denote_word (Q : regex -> text -> Prop) :
  Q Empty [] ->
  Q Boundary [] ->
  (forall p c, p c = true -> Q (Class p) [c]) ->
  (forall a b u v, Q a u -> Q b v -> Q (Cat a b) (u ++ v)) ->
  (forall a b u, Q a u -> Q (Alt a b) u) ->
  (forall a b u, Q b u -> Q (Alt a b) u) ->
  (forall hi a, Q (Repeat 0 hi a) []) ->
  (forall lo hi a u v,
      exhausted hi = false -> u <> [] -> Q a u ->
      Q (Repeat (pred lo) (option_map pred hi) a) v ->
      Q (Repeat lo hi a) (u ++ v)) ->
  forall r st st', denote r st st' -> exists w, consumed st st' w /\ Q r w.
Proof.
  intros QE QB QC QCat QL QR Q0 QS.
  induction r as [|p| |a IHa b IHb|a IHa b IHb|lo hi a IHa];
    intros st st'; simpl.
  - intros ->. exists []. split; [apply consumed_nil|exact QE].
  - intros (c & t & E & Hp & ->). exists [c]. split; [|apply QC; exact Hp].
    split; [exact E|reflexivity].
  - intros [-> _]. exists []. split; [apply consumed_nil|exact QB].
  - intros (mid & Ha & Hb).
    destruct (IHa _ _ Ha) as (u & Hu & Qu).
    destruct (IHb _ _ Hb) as (v & Hv & Qv).
    exists (u ++ v). split; [eapply consumed_trans; eauto|auto].
  - intros [H|H].
    + destruct (IHa _ _ H) as (u & Hu & Qu). exists u. auto.
    + destruct (IHb _ _ H) as (u & Hu & Qu). exists u. auto.
  - intros H. induction H as [hi st|lo hi s1 s2 s3 Hex Hstep Hadv Hrest IH].
    + exists []. split; [apply consumed_nil|apply Q0].
    + destruct (IHa _ _ Hstep) as (u & Hu & Qu).
      destruct IH as (v & Hv & Qv).
      exists (u ++ v). split; [eapply consumed_trans; eauto|].
      apply QS; auto. eapply advances_consumed; eauto.
Qed.

Lemma denote_consumed (r : regex) (st st' : state) :
  denote r st st' -> exists w, consumed st st' w.
Proof.
  intros H.
  destruct (denote_word (fun _ _ => True)) with (r := r) (st := st)
    (st' := st') as (w & Hw & _); auto.
  exists w. exact Hw.
Qed.

End MatcherFacts.

Section Analyses.

Lemma in_all_chars (c : ascii) : In c all_chars.
Proof.
  unfold all_chars. rewrite <- (ascii_nat_embedding c).
  apply in_map, in_seq. pose proof (nat_ascii_bounded c). lia.
Qed.

Lemma subclass_spec (q p : ascii -> bool) (c : ascii) :
  subclass q p = true -> q c = true -> p c = true.
Proof.
  unfold subclass. rewrite forallb_forall. intros H Hq.
  specialize (H c (in_all_chars c)). rewrite Hq in H. exact H.
Qed.

Lemma reads_only_sound (p : ascii -> bool) (r : regex) (st st' : state)
      (w : text) :
  reads_only p r = true -> denote r st st' -> consumed st st' w ->
  Forall (fun c => p c = true) w.
Proof.
  intros Hr Hd Hw.
  destruct (denote_word
              (fun r w => reads_only p r = true ->
                          Forall (fun c => p c = true) w))
    with (r := r) (st := st) (st' := st') as (w' & Hw' & HQ);
    try exact Hd; simpl.
  - constructor.
  - constructor.
  - intros q c Hq Hs. constructor; [|constructor].
    eapply subclass_spec; eauto.
  - intros a b u v Hu Hv H. apply andb_prop in H. destruct H.
    apply Forall_app; auto.
  - intros a b u Hu H. apply andb_prop in H. destruct H. auto.
  - intros a b u Hu H. apply andb_prop in H. destruct H. auto.
  - constructor.
  - intros lo hi a u v _ _ Hu Hv H. apply Forall_app; auto.
  - rewrite (consumed_unique _ _ _ _ Hw Hw'). auto.
Qed.

Lemma requires_sound (p : ascii -> bool) (r : regex) (st st' : state)
      (w : text) :
  requires p r = true -> denote r st st' -> consumed st st' w ->
  Exists (fun c => p c = true) w.
Proof.
  intros Hr Hd Hw.
  destruct (denote_word
              (fun r w => requires p r = true ->
                          Exists (fun c => p c = true) w))
    with (r := r) (st := st) (st' := st') as (w' & Hw' & HQ);
    try exact Hd; simpl; try discriminate.
  - intros q c Hq Hs. constructor. eapply subclass_spec; eauto.
  - intros a b u v Hu Hv H. apply Exists_app.
    apply orb_prop in H. destruct H; auto.
  - intros a b u Hu H. apply andb_prop in H. destruct H. auto.
  - intros a b u Hu H. apply andb_prop in H. destruct H. auto.
  - intros lo hi a u v _ _ Hu _ H. apply andb_prop in H. destruct H.
    apply Exists_app. auto.
  - rewrite (consumed_unique _ _ _ _ Hw Hw'). auto.
Qed.

(** A pattern that requires some character has no empty match. *)
Lemma requires_advances (p : ascii -> bool) (r : regex) (st st' : state) :
  requires p r = true -> In st' (run r st) ->
  length (snd st') < length (snd st).
Proof.
  intros Hr Hin. apply run_denote in Hin.
  destruct (denote_consumed _ _ _ Hin) as (w & Hw).
  pose proof (requires_sound _ _ _ _ _ Hr Hin Hw) as Hex.
  apply consumed_length in Hw.
  destruct w; [inversion Hex|]. simpl in Hw. text_lia.
Qed.

Lemma run_without_required (p : ascii -> bool) (r : regex)
      (prev : option ascii) (s : text) :
  requires p r = true -> Forall (fun c => p c = false) s ->
  run r (prev, s) = [].
Proof.
  intros Hr Hs. destruct (run r (prev, s)) as [|st' l] eqn:E; [reflexivity|].
  assert (Hin : In st' (run r (prev, s))) by (rewrite E; left; reflexivity).
  apply run_denote in Hin.
  destruct (denote_consumed _ _ _ Hin) as (w & Hw).
  pose proof (requires_sound _ _ _ _ _ Hr Hin Hw) as Hex.
  destruct Hw as [Hw _]. simpl in Hw. rewrite Hw in Hs.
  apply Forall_app in Hs. destruct Hs as [Hs _].
  apply Exists_exists in Hex. destruct Hex as (c & Hc & Hp).
  rewrite Forall_forall in Hs. specialize (Hs c Hc). congruence.
Qed.

Lemma scan_without_required (p : ascii -> bool) (r : regex) (s : text) :
  requires p r = true -> Forall (fun c => p c = false) s ->
  forall pos prev, scan r 0 pos prev s = [].
Proof.
  intros Hr. induction s as [|c t IH]; intros Hs pos prev; simpl;
    unfold match_here; rewrite (run_without_required p r prev _ Hr Hs);
    simpl.
  - reflexivity.
  - apply IH. inversion Hs; assumption.
Qed.

Lemma sub_without_required (p : ascii -> bool) (r : regex)
      (repl s : text) :
  requires p r = true -> Forall (fun c => p c = false) s ->
  sub r repl s = s.
Proof.
  intros Hr Hs. unfold sub, finditer.
  rewrite (scan_without_required p r s Hr Hs). reflexivity.
Qed.

(** A text without any character that the patterns require is left as
    it is. *)
Lemma clean_text_without_required (p : ascii -> bool) (t : text) :
  forallb (fun entry => requires p (snd entry)) patterns = true ->
  Forall (fun c => p c = false) t ->
  clean_text t = t.
Proof.
  intros Hp Ht. unfold clean_text. destruct t as [|c t']; [reflexivity|].
  set (s := c :: t') in *. clearbody s.
  rewrite forallb_forall in Hp.
  induction patterns as [|entry rest IH]; [reflexivity|].
  simpl. unfold apply_pattern at 2.
  rewrite (sub_without_required p) by (auto; apply Hp; left; reflexivity).
  apply IH. intros e He. apply Hp. right. exact He.
Qed.

Lemma match_here_none (r : regex) (st : state) :
  match_here r st = None -> run r st = [].
Proof. unfold match_here. destruct (run r st); [reflexivity|discriminate]. Qed.

Lemma match_here_some (r : regex) (st st' : state) :
  match_here r st = Some st' -> In st' (run r st).
Proof.
  unfold match_here. destruct (run r st); [discriminate|].
  intros [= ->]. left. reflexivity.
Qed.

Lemma scan_skip (r : regex) (k pos : nat) (prev : option ascii)
      (c : ascii) (t : text) :
  scan r (S k) pos prev (c :: t) = scan r k (S pos) (Some c) t.
Proof. reflexivity. Qed.

Lemma scan_miss (r : regex) (pos : nat) (prev : option ascii)
      (c : ascii) (t : text) :
  match_here r (prev, c :: t) = None ->
  scan r 0 pos prev (c :: t) = scan r 0 (S pos) (Some c) t.
Proof. intros H. cbn [scan]. rewrite H. reflexivity. Qed.

Lemma scan_hit (r : regex) (pos : nat) (prev p' : option ascii)
      (c : ascii) (t s' : text) :
  match_here r (prev, c :: t) = Some (p', s') ->
  scan r 0 pos prev (c :: t)
  = (pos, pos + (length (c :: t) - length s'))
      :: scan r (pred (length (c :: t) - length s')) (S pos) (Some c) t.
Proof. intros H. cbn [scan]. rewrite H. reflexivity. Qed.


(** In the patterns of the sanitizer every round of a repetition reads at
    least one character: the matcher's test for progress leaves out
    nothing. *)
Lemma rounds_always_advance (a : regex) (st : state) :
  requires any_char a = true ->
  filter (advances st) (run a st) = run a st.
Proof.
  intros Hr.
  assert (H : forall st', In st' (run a st) -> advances st st' = true).
  { intros st' Hin. apply Nat.ltb_lt.
    exact (requires_advances any_char a st st' Hr Hin). }
  induction (run a st) as [|x l IH]; [reflexivity|].
  simpl. rewrite (H x) by (left; reflexivity).
  f_equal. apply IH. intros st' Hin. apply H. right. exact Hin.
Qed.

Lemma patterns_rounds_advance :
  forallb (fun entry => rounds_advance (snd entry)) patterns = true.
Proof. vm_compute. reflexivity. Qed.

End Analyses.

(** ** The sanitizer: the stated properties *)

Lemma patterns_require_trigger :
  forallb (fun entry => requires trigger (snd entry)) patterns = true.
Proof. vm_compute. reflexivity. Qed.

Lemma patterns_require_not_whitespace :
  forallb (fun entry => requires not_whitespace (snd entry)) patterns = true.
Proof. vm_compute. reflexivity. Qed.

Lemma patterns_read_no_bracket :
  forallb (fun entry => reads_only not_bracket (snd entry)) patterns = true.
Proof. vm_compute. reflexivity. Qed.

Lemma replacements_bracketed :
  forallb (fun entry => bracketed (snd entry)) replacements = true.
Proof. vm_compute. reflexivity. Qed.

Lemma pattern_advances (name : string) (pat : regex) (st st' : state) :
  In (name, pat) patterns -> In st' (run pat st) ->
  length (snd st') < length (snd st).
Proof.
  intros Hin. apply requires_advances with (p := trigger).
  pose proof patterns_require_trigger as H. rewrite forallb_forall in H.
  exact (H _ Hin).
Qed.

(** C4, as stated, fails: a text of one space is returned as it is, not
    as the empty string. *)
Lemma clean_text_keeps_whitespace :
  forallb is_whitespace (lit " ") = true /\
  clean_text (lit " ") = lit " " /\
  clean_text (lit " ") <> [].
Proof. repeat split; try reflexivity. vm_compute. discriminate. Qed.

(** C4, amended: the empty text gives the empty text, and a text of
    whitespace only is returned unchanged; [clean_text] is total. *)
Theorem clean_text_whitespace (t : text) :
  forallb is_whitespace t = true -> clean_text t = t.
Proof.
  intros Hw. apply clean_text_without_required with (p := not_whitespace).
  - exact patterns_require_not_whitespace.
  - rewrite forallb_forall in Hw. apply Forall_forall. intros c Hc.
    unfold not_whitespace. rewrite (Hw c Hc). reflexivity.
Qed.

Lemma clean_text_whitespace_witness :
  clean_text [] = [] /\ clean_text (lit " 	 ") = lit " 	 ".
Proof.
  split.
  - apply (clean_text_whitespace []). reflexivity.
  - apply (clean_text_whitespace (lit " 	 ")). reflexivity.
Defined.

Lemma nth_error_middle {A : Type} (a b c : list A) (i : nat) :
  i < length b -> nth_error (a ++ b ++ c) (length a + i) = nth_error b i.
Proof.
  intros Hi. rewrite nth_error_app2 by lia.
  replace (length a + i - length a) with i by lia.
  apply nth_error_app1. exact Hi.
Qed.

Lemma bracketed_spec (R : text) :
  bracketed R = true ->
  nth_error R 0 = Some "["%char /\
  nth_error R (length R - 1) = Some "]"%char /\
  (forall c, In c R -> trigger c = false).
Proof.
  unfold bracketed. intros H.
  destruct R as [|c0 R']; [discriminate|].
  destruct (Ascii.eqb_spec c0 "["%char) as [->|Hc0].
  2:{ exfalso. destruct c0 as [[] [] [] [] [] [] [] []];
      try discriminate H; apply Hc0; reflexivity. }
  destruct (rev ("["%char :: R')) as [|c1 l] eqn:Hrev.
  { exfalso. cbv beta iota in H. discriminate H. }
  destruct (Ascii.eqb_spec c1 "]"%char) as [->|Hc1].
  2:{ exfalso. destruct c1 as [[] [] [] [] [] [] [] []];
      try discriminate H; apply Hc1; reflexivity. }
  cbv beta iota in H.
  split; [reflexivity|]. split.
  - apply (f_equal (@rev ascii)) in Hrev. rewrite rev_involutive in Hrev.
    rewrite Hrev. simpl rev. rewrite length_app. simpl length.
    rewrite nth_error_app2 by lia.
    replace (length (rev l) + 1 - 1 - length (rev l)) with 0 by lia.
    reflexivity.
  - rewrite forallb_forall in H. intros c Hc. specialize (H c Hc).
    destruct (trigger c); [discriminate|reflexivity].
Qed.

Lemma matches_span_word (pat : regex) (before w after : text) :
  matches_span pat before w after ->
  (forall p, reads_only p pat = true -> Forall (fun c => p c = true) w) /\
  (forall p, requires p pat = true -> Exists (fun c => p c = true) w).
Proof.
  unfold matches_span. intros H. apply run_denote in H.
  assert (Hw : consumed (last_char None before, w ++ after)
                        (last_char (last_char None before) w, after) w)
    by (split; reflexivity).
  split; intros p Hp.
  - exact (reads_only_sound p pat _ _ w Hp H Hw).
  - exact (requires_sound p pat _ _ w Hp H Hw).
Qed.

(** C2, as stated, fails: replacing the MAC address puts a bracket before
    the digits that follow it, so that a second pass finds an IPv4 address
    where the first found none. *)
Lemma clean_text_not_idempotent :
  clean_text (lit "00:11:22:33:44:FF1.2.3.4") = lit "[REDACTED_MAC]1.2.3.4" /\
  clean_text (clean_text (lit "00:11:22:33:44:FF1.2.3.4"))
  = lit "[REDACTED_MAC][REDACTED_IP]" /\
  clean_text (clean_text (lit "00:11:22:33:44:FF1.2.3.4"))
  <> clean_text (lit "00:11:22:33:44:FF1.2.3.4").
Proof. repeat split; try (vm_compute; reflexivity). vm_compute. discriminate. Qed.

(** C2, amended: the placeholders never match again.  [clean_text] leaves
    each placeholder as it is, and in no text does a match of a registered
    pattern overlap an occurrence of a placeholder. *)
Theorem placeholders_never_rematch (key : string) (R : text) :
  In (key, R) replacements ->
  clean_text R = R /\
  forall name pat pre post before w after,
    In (name, pat) patterns ->
    before ++ w ++ after = pre ++ R ++ post ->
    matches_span pat before w after ->
    length before + length w <= length pre \/
    length pre + length R <= length before.
Proof.
  intros HR.
  pose proof replacements_bracketed as HB. rewrite forallb_forall in HB.
  destruct (bracketed_spec R (HB _ HR)) as (Hopen & Hclose & Hnone).
  split.
  - apply clean_text_without_required with (p := trigger).
    + exact patterns_require_trigger.
    + apply Forall_forall. exact Hnone.
  - intros name pat pre post before w after Hpat HT Hm.
    destruct (matches_span_word pat before w after Hm) as [Hro Hrq].
    pose proof patterns_read_no_bracket as H1. rewrite forallb_forall in H1.
    pose proof patterns_require_trigger as H2. rewrite forallb_forall in H2.
    specialize (Hro not_bracket (H1 _ Hpat)).
    specialize (Hrq trigger (H2 _ Hpat)).
    rewrite Forall_forall in Hro.
    assert (HlenR : 0 < length R).
    { destruct R; [discriminate Hopen|simpl; lia]. }
    destruct (le_lt_dec (length before + length w) (length pre)) as [|Ha];
      [left; assumption|].
    destruct (le_lt_dec (length pre + length R) (length before)) as [|Hb];
      [right; assumption|].
    exfalso.
    (* the opening bracket is not in the match *)
    assert (Hstart : length pre < length before).
    { destruct (le_lt_dec (length before) (length pre)) as [Hle|]; [|assumption].
      exfalso.
      assert (E : nth_error w (length pre - length before) = Some "["%char).
      { rewrite <- (nth_error_middle before w after) by lia.
        replace (length before + (length pre - length before))
          with (length pre + 0) by lia.
        rewrite HT, nth_error_middle by lia. exact Hopen. }
      apply nth_error_In in E. specialize (Hro _ E). discriminate Hro. }
    (* nor is the closing one *)
    assert (Hend : length before + length w <= length pre + length R - 1).
    { destruct (le_lt_dec (length before + length w)
                          (length pre + length R - 1)) as [|Hgt];
        [assumption|]. exfalso.
      assert (E : nth_error w (length pre + length R - 1 - length before)
                  = Some "]"%char).
      { rewrite <- (nth_error_middle before w after) by lia.
        replace (length before + (length pre + length R - 1 - length before))
          with (length pre + (length R - 1)) by lia.
        rewrite HT, nth_error_middle by lia. exact Hclose. }
      apply nth_error_In in E. specialize (Hro _ E). discriminate Hro. }
    (* so the match lies inside the placeholder, which has no trigger *)
    apply Exists_exists in Hrq. destruct Hrq as (c & Hc & Htrig).
    apply In_nth_error in Hc. destruct Hc as (i & Hi).
    assert (Hilt : i < length w) by (apply nth_error_Some; congruence).
    assert (E : nth_error R (length before + i - length pre) = Some c).
    { rewrite <- (nth_error_middle pre R post) by lia.
      replace (length pre + (length before + i - length pre))
        with (length before + i) by lia.
      rewrite <- HT, nth_error_middle by lia. exact Hi. }
    apply nth_error_In in E. rewrite (Hnone _ E) in Htrig. discriminate.
Qed.

Lemma placeholders_never_rematch_witness :
  clean_text (lit "[REDACTED_IP]") = lit "[REDACTED_IP]" /\
  (length (lit "at ") + length (lit "10.0.0.5") <= length (lit "at 10.0.0.5 ")
   \/ length (lit "at 10.0.0.5 ") + length (lit "[REDACTED_IP]")
      <= length (lit "at ")).
Proof.
  destruct (placeholders_never_rematch "IPV4" (lit "[REDACTED_IP]"))
    as [Hfix Hspan].
  - left. reflexivity.
  - split; [exact Hfix|].
    apply (Hspan "IPV4"%string IPV4 (lit "at 10.0.0.5 ") (lit "!")
                 (lit "at ") (lit "10.0.0.5") (lit " [REDACTED_IP]!")).
    + left. reflexivity.
    + reflexivity.
    + unfold matches_span. vm_compute. left. reflexivity.
Defined.

Section ShapeFacts.

Lemma consumed_nil_eq (st st' : state) : consumed st st' [] -> st' = st.
Proof.
  destruct st, st'. intros [E L]. simpl in *. subst. reflexivity.
Qed.

Lemma consumed_split (st st' : state) (u v : text) :
  consumed st st' (u ++ v) ->
  consumed st (last_char (fst st) u, v ++ snd st') u /\
  consumed (last_char (fst st) u, v ++ snd st') st' v.
Proof.
  intros [E L]. repeat split; simpl.
  - rewrite E, app_assoc. reflexivity.
  - rewrite L, last_char_app. reflexivity.
Qed.

(** The matcher's relation and the words agree. *)
Theorem denote_shape (r : regex) (st st' : state) :
  denote r st st' <->
  exists u, consumed st st' u /\ shape r (fst st) u (snd st').
Proof.
  revert st st'.
  induction r as [|p| |a IHa b IHb|a IHa b IHb|lo hi a IHa];
    intros st st'; cbn [denote shape].
  - split.
    + intros ->. exists []. split; [apply consumed_nil|reflexivity].
    + intros (u & Hu & ->). apply consumed_nil_eq. exact Hu.
  - split.
    + intros (c & t & E & Hp & ->). exists [c]. split.
      * split; [exact E|reflexivity].
      * exists c. auto.
    + intros (u & [E L] & c & -> & Hp). exists c, (snd st').
      repeat split; try assumption.
      destruct st'. simpl in *. subst. reflexivity.
  - split.
    + intros [-> Hb]. exists []. split; [apply consumed_nil|].
      split; [reflexivity|]. destruct st. exact Hb.
    + intros (u & Hu & -> & Hb). apply consumed_nil_eq in Hu. subst.
      split; [reflexivity|]. destruct st. exact Hb.
  - split.
    + intros (mid & Ha & Hb).
      apply IHa in Ha. destruct Ha as (u1 & Hu1 & Sa).
      apply IHb in Hb. destruct Hb as (u2 & Hu2 & Sb).
      exists (u1 ++ u2). split; [eapply consumed_trans; eauto|].
      exists u1, u2. split; [reflexivity|].
      destruct Hu1 as [E1 L1]. destruct Hu2 as [E2 L2].
      rewrite <- E2, <- L1. auto.
    + intros (u & Hu & u1 & u2 & -> & Sa & Sb).
      apply consumed_split in Hu. destruct Hu as [H1 H2].
      exists (last_char (fst st) u1, u2 ++ snd st'). split.
      * apply IHa. exists u1. auto.
      * apply IHb. exists u2. auto.
  - split.
    + intros [H|H]; [apply IHa in H|apply IHb in H];
        destruct H as (u & Hu & Hs); exists u; auto.
    + intros (u & Hu & [H|H]); [left; apply IHa|right; apply IHb];
        exists u; auto.
  - split.
    + intros H.
      induction H as [hi st|lo hi s1 s2 s3 Hex Hstep Hadv Hrest IH].
      * exists []. split; [apply consumed_nil|constructor].
      * apply IHa in Hstep. destruct Hstep as (u & Hu & Su).
        destruct IH as (v & Hv & Sv).
        exists (u ++ v). split; [eapply consumed_trans; eauto|].
        pose proof (advances_consumed _ _ _ Hu Hadv) as Hne.
        destruct Hu as [E1 L1]. destruct Hv as [E2 L2].
        constructor; try assumption.
        -- rewrite <- E2. exact Su.
        -- rewrite <- L1. exact Sv.
    + intros (u & Hu & H). remember (fst st) as prev eqn:Hp.
      remember (snd st') as rest eqn:Hr.
      revert st st' Hp Hr Hu.
      induction H as [hi prev rest|lo hi prev u v rest Hex Hne Su Hrest IH];
        intros st st' Hp Hr Hu.
      * apply consumed_nil_eq in Hu. subst. constructor.
      * subst. apply consumed_split in Hu. destruct Hu as [H1 H2].
        apply Iter_more with (s2 := (last_char (fst st) u, v ++ snd st'));
          try assumption.
        -- apply IHa. exists u. auto.
        -- unfold advances. apply Nat.ltb_lt.
           apply consumed_length in H1. simpl in H1.
           destruct u; [congruence|]. simpl in *. lia.
        -- apply IH; auto.
Qed.

Lemma matches_span_shape (r : regex) (before w after : text) :
  matches_span r before w after <->
  shape r (last_char None before) w after.
Proof.
  unfold matches_span. rewrite run_denote, denote_shape. simpl. split.
  - intros (u & [E _] & Hs). simpl in E. apply app_inv_tail in E.
    subst. exact Hs.
  - intros Hs. exists w. split; [split; reflexivity|exact Hs].
Qed.

(** Repetitions of a class. *)
Lemma rounds_class (p : ascii -> bool) (lo : nat) (prev : option ascii)
      (u rest : text) :
  rounds (shape (Class p)) lo None prev u rest <->
  Forall (fun c => p c = true) u /\ lo <= length u.
Proof.
  split.
  - intros H. remember None as hi eqn:Hhi.
    induction H as [hi prev rest|lo hi prev u v rest Hex Hne Su Hrest IH].
    + split; [constructor|simpl; lia].
    + subst hi. destruct (IH eq_refl) as [Hv Hlen].
      destruct Su as (c & -> & Hp). split.
      * constructor; assumption.
      * simpl. lia.
  - intros [Hu Hlen]. revert lo prev Hlen.
    induction Hu as [|c u Hc Hu IH]; intros lo prev Hlen.
    + simpl in Hlen. replace lo with 0 by lia. constructor.
    + apply (rounds_more (shape (Class p)) lo None prev [c] u rest).
      * reflexivity.
      * discriminate.
      * exists c. auto.
      * apply IH. simpl in Hlen. lia.
Qed.

Lemma rounds_optional (p : ascii -> bool) (prev : option ascii)
      (u rest : text) :
  rounds (shape (Class p)) 0 (Some 1) prev u rest <->
  u = [] \/ exists c, u = [c] /\ p c = true.
Proof.
  split.
  - intros H. inversion H as [|? ? ? u1 v ? Hex Hne Su Hrest]; subst.
    + left. reflexivity.
    + right. destruct Su as (c & -> & Hp). simpl in Hrest.
      inversion Hrest as [|? ? ? ? ? ? Hex' _ _ _]; subst.
      * exists c. auto.
      * discriminate Hex'.
  - intros [->|(c & -> & Hp)]; [constructor|].
    apply (rounds_more (shape (Class p)) 0 (Some 1) prev [c] [] rest).
    + reflexivity.
    + discriminate.
    + exists c. auto.
    + constructor.
Qed.

(** A literal word under [(?i)]. *)
Lemma shape_word_i (l : text) (prev : option ascii) (u rest : text) :
  shape (fold_right (fun c r => chr_i c ;; r) Empty l) prev u rest <->
  map to_lower u = map to_lower l.
Proof.
  revert prev u. induction l as [|c l IH]; intros prev u; simpl.
  - split; [intros ->; reflexivity|].
    destruct u; [reflexivity|discriminate].
  - split.
    + intros (u1 & u2 & -> & (x & -> & Hx) & H2).
      apply IH in H2. apply Ascii.eqb_eq in Hx. simpl. congruence.
    + destruct u as [|x u]; [discriminate|]. simpl. intros [= Hx Hu].
      exists [x], u. split; [reflexivity|]. split.
      * exists x. split; [reflexivity|]. apply Ascii.eqb_eq. exact Hx.
      * apply IH. exact Hu.
Qed.

End ShapeFacts.

(** ** The SECRET_KEY pattern *)

Section SecretKey.

Lemma is_word_to_lower (c : ascii) : is_word (to_lower c) = is_word c.
Proof. destruct c as [[] [] [] [] [] [] [] []]; reflexivity. Qed.

Lemma separator_cases (c : ascii) :
  one_of "_-" c = true <-> c = "_"%char \/ c = "-"%char.
Proof.
  unfold one_of. simpl. rewrite orb_false_r, orb_true_iff, !Ascii.eqb_eq.
  tauto.
Qed.

Lemma to_lower_separator (c x : ascii) :
  x = "_"%char \/ x = "-"%char -> to_lower c = x -> c = x.
Proof.
  intros [->| ->]; destruct c as [[] [] [] [] [] [] [] []];
    try discriminate; reflexivity.
Qed.

Lemma last_char_tail (p : option ascii) (u v : text) :
  v <> [] -> last_char p (u ++ v) = last_char None v.
Proof.
  intros Hv. rewrite last_char_app.
  destruct (exists_last Hv) as (v0 & z & ->).
  rewrite !last_char_app. reflexivity.
Qed.

(** A keyword in two parts with an optional [_] or [-] between them. *)
Lemma shape_compound (a b : string) (prev : option ascii) (u rest : text) :
  shape (word_i a ;; opt_sep ;; word_i b) prev u rest <->
  map to_lower u = map to_lower (lit a) ++ map to_lower (lit b) \/
  map to_lower u
  = map to_lower (lit a) ++ "_"%char :: map to_lower (lit b) \/
  map to_lower u
  = map to_lower (lit a) ++ "-"%char :: map to_lower (lit b).
Proof.
  unfold word_i, opt_sep. cbn [shape]. split.
  - intros (u1 & u2 & -> & Ha & o & u3 & -> & Ho & Hb).
    apply shape_word_i in Ha, Hb. apply rounds_optional in Ho.
    rewrite !map_app, Ha, Hb.
    destruct Ho as [->|(c & -> & Hc)]; [left; reflexivity|].
    apply separator_cases in Hc. destruct Hc as [->| ->]; auto.
  - intros H.
    assert (Hsplit : exists u1 o u3,
               u = u1 ++ o ++ u3 /\
               map to_lower u1 = map to_lower (lit a) /\
               map to_lower u3 = map to_lower (lit b) /\
               (o = [] \/ exists c, o = [c] /\ one_of "_-" c = true)).
    { destruct H as [H|[H|H]].
      - apply map_eq_app in H. destruct H as (u1 & u3 & -> & H1 & H3).
        exists u1, [], u3. auto.
      - apply map_eq_app in H. destruct H as (u1 & u2 & -> & H1 & H2).
        destruct u2 as [|c u3]; [discriminate|].
        simpl in H2. injection H2 as Hc H3.
        apply to_lower_separator in Hc; [|auto]. subst c.
        exists u1, ["_"%char], u3. repeat split; auto.
        right. exists "_"%char. auto.
      - apply map_eq_app in H. destruct H as (u1 & u2 & -> & H1 & H2).
        destruct u2 as [|c u3]; [discriminate|].
        simpl in H2. injection H2 as Hc H3.
        apply to_lower_separator in Hc; [|auto]. subst c.
        exists u1, ["-"%char], u3. repeat split; auto.
        right. exists "-"%char. auto. }
    destruct Hsplit as (u1 & o & u3 & -> & H1 & H3 & Ho).
    exists u1, (o ++ u3). split; [reflexivity|]. split.
    + apply shape_word_i. exact H1.
    + exists o, u3. split; [reflexivity|]. split.
      * apply rounds_optional. exact Ho.
      * apply shape_word_i. exact H3.
Qed.

Lemma shape_alt (a b : regex) (prev : option ascii) (u rest : text) :
  shape (Alt a b) prev u rest <-> shape a prev u rest \/ shape b prev u rest.
Proof. reflexivity. Qed.

Lemma shape_keyword (prev : option ascii) (u rest : text) :
  shape keyword prev u rest <-> In (map to_lower u) secret_keywords.
Proof.
  unfold keyword. rewrite !shape_alt, !shape_compound.
  unfold word_i. rewrite !shape_word_i.
  unfold secret_keywords. cbn [map In].
  change (map to_lower (lit "api") ++ map to_lower (lit "key"))
    with (lit "apikey").
  change (map to_lower (lit "api") ++ "_"%char :: map to_lower (lit "key"))
    with (lit "api_key").
  change (map to_lower (lit "api") ++ "-"%char :: map to_lower (lit "key"))
    with (lit "api-key").
  change (map to_lower (lit "access") ++ map to_lower (lit "token"))
    with (lit "accesstoken").
  change (map to_lower (lit "access")
            ++ "_"%char :: map to_lower (lit "token"))
    with (lit "access_token").
  change (map to_lower (lit "access")
            ++ "-"%char :: map to_lower (lit "token"))
    with (lit "access-token").
  change (map to_lower (lit "secret")) with (lit "secret").
  change (map to_lower (lit "password")) with (lit "password").
  change (map to_lower (lit "auth")) with (lit "auth").
  split; intros H; repeat destruct H as [H|H];
    try contradiction; try (symmetry in H); tauto.
Qed.

Lemma keyword_starts_with_letter (kw : text) :
  In (map to_lower kw) secret_keywords ->
  exists x kw', kw = x :: kw' /\ is_word x = true.
Proof.
  intros H. destruct kw as [|x kw'].
  - exfalso. unfold secret_keywords in H. cbn [map In] in H.
    repeat destruct H as [H|H]; solve [discriminate H | contradiction].
  - exists x, kw'. split; [reflexivity|].
    rewrite <- is_word_to_lower.
    unfold secret_keywords in H. cbn [map In] in H.
    repeat destruct H as [H|H]; try contradiction;
      simpl in H; injection H as Hx _; rewrite <- Hx; reflexivity.
Qed.

End SecretKey.

Section SecretKeyRule.

Lemma starts_with_app (u v : text) : starts_with u (u ++ v) = true.
Proof.
  induction u as [|c u IH]; [reflexivity|].
  simpl. rewrite Ascii.eqb_refl. exact IH.
Qed.

(** A word of the shape begins with one of the keywords. *)
Lemma secret_shape_keyword (keywords : list text) (w : text) :
  secret_shape keywords w ->
  existsb (fun k => starts_with k (map to_lower w)) keywords = true.
Proof.
  intros (kw & ws1 & sep & ws2 & tok & -> & Hkw & _).
  apply existsb_exists. exists (map to_lower kw). split; [exact Hkw|].
  rewrite map_app. apply starts_with_app.
Qed.

(** C8, as stated, fails: [apikey], without a separator between its two
    parts, is accepted as a keyword and is not one of the seven. *)
Lemma secret_key_accepts_apikey :
  matches_span SECRET_KEY [] (lit "apikey=0123456789abcdef") [] /\
  ~ secret_shape spec_keywords (lit "apikey=0123456789abcdef").
Proof.
  split.
  - unfold matches_span. vm_compute. left. reflexivity.
  - intros H. apply secret_shape_keyword in H. vm_compute in H.
    discriminate H.
Qed.

(** C8, amended: the SECRET_KEY pattern matches a part [w] of a text
    exactly when [w] is one of the nine keywords [api_key], [api-key],
    [apikey], [access_token], [access-token], [accesstoken], [secret],
    [password], [auth] in any case, then whitespace or none, [:] or [=],
    whitespace or none, and 16 or more characters of [A-Za-z0-9_-]; when
    moreover no word character stands before [w]; and when exactly one
    of the last character of [w] and the character after [w] is a word
    character. *)
Theorem secret_key_rule (before w after : text) :
  matches_span SECRET_KEY before w after <->
  secret_shape secret_keywords w /\
  word_char (last_char None before) = false /\
  xorb (word_char (last_char None w)) (word_char (hd_error after)) = true.
Proof.
  rewrite matches_span_shape. set (prev := last_char None before).
  unfold SECRET_KEY, space. cbn [shape]. split.
  - intros (u0 & r0 & -> & [-> Hb0] & kw & r1 & -> & Hkw
            & ws1 & r2 & -> & Hws1 & sepw & r3 & -> & (sep & -> & Hsep)
            & ws2 & r4 & -> & Hws2 & tok & r5 & -> & Htok & -> & Hb1).
    apply shape_keyword in Hkw.
    apply rounds_class in Hws1, Hws2, Htok.
    destruct Hws1 as [Hws1 _]. destruct Hws2 as [Hws2 _].
    destruct Htok as [Htok Hlen].
    assert (Hne : tok <> []) by (destruct tok; [simpl in Hlen; lia|discriminate]).
    rewrite app_nil_r in *. cbn [app] in *.
    split; [|split].
    + exists kw, ws1, sep, ws2, tok. repeat split; assumption.
    + destruct (keyword_starts_with_letter kw Hkw) as (x & kw' & -> & Hx).
      unfold at_boundary in Hb0. cbn in Hb0. rewrite Hx in Hb0.
      destruct (word_char prev); [discriminate|reflexivity].
    + unfold at_boundary in Hb1. cbn [fst snd] in Hb1.
      rewrite <- Hb1. f_equal. f_equal.
      replace (kw ++ ws1 ++ sep :: ws2 ++ tok)
        with ((kw ++ ws1 ++ sep :: ws2) ++ tok)
        by (rewrite <- !app_assoc; reflexivity).
      rewrite last_char_tail by exact Hne.
      rewrite <- (app_nil_l tok) at 2.
      rewrite last_char_tail by exact Hne. reflexivity.
  - intros ((kw & ws1 & sep & ws2 & tok & -> & Hkw & Hws1 & Hsep & Hws2
             & Htok & Hlen) & Hprev & Hend).
    assert (Hne : tok <> []) by (destruct tok; [simpl in Hlen; lia|discriminate]).
    exists [], (kw ++ ws1 ++ sep :: ws2 ++ tok). split; [reflexivity|]. split.
    { split; [reflexivity|].
      destruct (keyword_starts_with_letter kw Hkw) as (x & kw' & -> & Hx).
      unfold at_boundary. cbn. rewrite Hx. fold prev. rewrite Hprev.
      reflexivity. }
    exists kw, (ws1 ++ sep :: ws2 ++ tok). split; [reflexivity|]. split.
    { apply shape_keyword. exact Hkw. }
    exists ws1, (sep :: ws2 ++ tok). split; [reflexivity|]. split.
    { apply rounds_class. split; [exact Hws1|lia]. }
    exists [sep], (ws2 ++ tok). split; [reflexivity|]. split.
    { exists sep. auto. }
    exists ws2, tok. split; [reflexivity|]. split.
    { apply rounds_class. split; [exact Hws2|lia]. }
    exists tok, []. split; [rewrite app_nil_r; reflexivity|]. split.
    { apply rounds_class. split; assumption. }
    split; [reflexivity|].
    unfold at_boundary. cbn [fst snd]. rewrite <- Hend. f_equal. f_equal.
    replace (kw ++ ws1 ++ sep :: ws2 ++ tok)
      with ((kw ++ ws1 ++ sep :: ws2) ++ tok)
      by (rewrite <- !app_assoc; reflexivity).
    rewrite (last_char_tail None) by exact Hne.
    rewrite <- (app_nil_l tok) at 1.
    apply last_char_tail. exact Hne.
Qed.

End SecretKeyRule.

(** ** Further properties of the chunker *)

Section ChunkerExtras.

Lemma create_chunks_all_windows (t : text) (cs ov : Z) :
  (0 <= ov < cs)%Z ->
  (forall k,
      k < window_count (length (split t)) (Z.to_nat (cs - ov)) ->
      long (join (lit " ")
                 (tokens_from (split t) (Z.to_nat cs)
                              (k * Z.to_nat (cs - ov)))) = true) ->
  create_chunks t cs ov
  = Returned
      (map (fun k => join (lit " ")
                       (tokens_from (split t) (Z.to_nat cs)
                                    (k * Z.to_nat (cs - ov))))
           (seq 0 (window_count (length (split t)) (Z.to_nat (cs - ov))))).
Proof.
  intros Hv Hall. rewrite create_chunks_windows by lia. f_equal.
  apply forallb_filter_id. apply forallb_forall. intros c Hc.
  apply in_map_iff in Hc. destruct Hc as (k & <- & Hk).
  apply in_seq in Hk. apply Hall. lia.
Qed.

Lemma three_long_words_windows (k : nat) :
  k < window_count (length (split three_long_words)) (Z.to_nat (2 - 1)) ->
  long (join (lit " ")
             (tokens_from (split three_long_words) (Z.to_nat 2)
                          (k * Z.to_nat (2 - 1)))) = true.
Proof.
  intros Hk. destruct k as [|[|[|k]]]; try (vm_compute; reflexivity).
  exfalso. vm_compute in Hk. lia.
Qed.

(** X2: when the length filter drops no window, two chunks that follow
    one another in the result overlap: the tokens of a chunk after its
    first [stride] tokens are the first [overlap] tokens of the next
    chunk, or all of its tokens when it has fewer. *)
Theorem consecutive_chunks_overlap (t : text) (cs ov : Z) :
  (0 <= ov < cs)%Z ->
  (forall k,
      k < window_count (length (split t)) (Z.to_nat (cs - ov)) ->
      long (join (lit " ")
                 (tokens_from (split t) (Z.to_nat cs)
                              (k * Z.to_nat (cs - ov)))) = true) ->
  exists chunks,
    create_chunks t cs ov = Returned chunks /\
    forall k a b,
      nth_error chunks k = Some a ->
      nth_error chunks (S k) = Some b ->
      skipn (Z.to_nat (cs - ov)) (split a) = firstn (Z.to_nat ov) (split b) /\
      length (skipn (Z.to_nat (cs - ov)) (split a))
      = Nat.min (Z.to_nat ov) (length (split b)).
Proof.
  intros Hv Hall. eexists.
  split; [apply create_chunks_all_windows; assumption|].
  set (s := Z.to_nat (cs - ov)).
  intros k a b Ha Hb.
  rewrite nth_error_map, nth_error_seq in Ha, Hb.
  destruct (Nat.ltb_spec k (window_count (length (split t)) s));
    [|discriminate Ha].
  destruct (Nat.ltb_spec (S k) (window_count (length (split t)) s));
    [|discriminate Hb].
  cbn [option_map Nat.add] in Ha, Hb.
  injection Ha as <-. injection Hb as <-.
  rewrite !split_join by apply tokens_from_tokens.
  unfold tokens_from.
  assert (E : skipn s (firstn (Z.to_nat cs) (skipn (k * s) (split t)))
              = firstn (Z.to_nat ov)
                       (firstn (Z.to_nat cs) (skipn (S k * s) (split t)))).
  { rewrite skipn_firstn_comm, skipn_skipn, firstn_firstn.
    replace (s + k * s) with (S k * s) by lia.
    f_equal. subst s. lia. }
  split; [exact E|].
  rewrite E. apply length_firstn.
Qed.

Lemma consecutive_chunks_overlap_witness :
  exists chunks,
    create_chunks three_long_words 2 1 = Returned chunks /\
    forall k a b,
      nth_error chunks k = Some a ->
      nth_error chunks (S k) = Some b ->
      skipn (Z.to_nat (2 - 1)) (split a) = firstn (Z.to_nat 1) (split b) /\
      length (skipn (Z.to_nat (2 - 1)) (split a))
      = Nat.min (Z.to_nat 1) (length (split b)).
Proof.
  apply (consecutive_chunks_overlap three_long_words 2 1);
    [lia|exact three_long_words_windows].
Defined.

Lemma join_weight (ws : list text) :
  length (join (lit " ") ws) = weight ws - 1.
Proof.
  induction ws as [|w rest IH]; [reflexivity|].
  destruct rest as [|w2 rest'].
  - simpl. lia.
  - change (join (lit " ") (w :: w2 :: rest'))
      with (w ++ " "%char :: join (lit " ") (w2 :: rest')).
    rewrite length_app.
    change (length (" "%char :: join (lit " ") (w2 :: rest')))
      with (S (length (join (lit " ") (w2 :: rest')))).
    rewrite IH.
    change (weight (w :: w2 :: rest'))
      with (S (length w) + weight (w2 :: rest')).
    assert (H : weight (w2 :: rest') = S (length w2) + weight rest')
      by reflexivity.
    lia.
Qed.

Lemma weight_app (u v : list text) : weight (u ++ v) = weight u + weight v.
Proof. induction u as [|w u IH]; simpl; [reflexivity|]. rewrite IH. lia. Qed.

Lemma weight_slice (ws : list text) (n i : nat) :
  weight (firstn n (skipn i ws)) <= weight ws.
Proof.
  rewrite <- (firstn_skipn i ws) at 2. rewrite weight_app.
  rewrite <- (firstn_skipn n (skipn i ws)) at 2. rewrite weight_app. lia.
Qed.

Lemma weight_split (t : text) :
  weight (split t) <= length t + (if at_gap t then 0 else 1).
Proof.
  induction t as [|c t IH]; [simpl; lia|].
  simpl split. simpl at_gap. simpl length.
  destruct (is_whitespace c) eqn:Hc.
  - destruct (at_gap t); lia.
  - destruct (at_gap t) eqn:Hg.
    + simpl. lia.
    + destruct (split t) as [|w ws]; simpl in *; lia.
Qed.

(** X3: for valid parameters there are at most [ceil(n / stride)] chunks
    for [n] tokens, and no chunk is longer than the text; a text of at
    most 50 characters gives no chunk at all. *)
Theorem create_chunks_bounds (t : text) (cs ov : Z) :
  (0 <= ov < cs)%Z ->
  exists chunks,
    create_chunks t cs ov = Returned chunks /\
    length chunks <= window_count (length (split t)) (Z.to_nat (cs - ov)) /\
    (forall chunk, In chunk chunks -> length chunk <= length t) /\
    (length t <= 50 -> chunks = []).
Proof.
  intros Hv. eexists. split; [apply create_chunks_windows; lia|].
  set (wins := map (fun k => join (lit " ")
                               (tokens_from (split t) (Z.to_nat cs)
                                            (k * Z.to_nat (cs - ov))))
                   (seq 0 (window_count (length (split t))
                                        (Z.to_nat (cs - ov))))).
  assert (Hlen : forall chunk, In chunk wins -> length chunk <= length t).
  { intros chunk Hin. apply in_map_iff in Hin. destruct Hin as (k & <- & _).
    rewrite join_weight. unfold tokens_from.
    pose proof (weight_slice (split t) (Z.to_nat cs) (k * Z.to_nat (cs - ov))).
    pose proof (weight_split t). destruct (at_gap t); lia. }
  split; [|split].
  - pose proof (filter_length_le long wins) as H.
    unfold wins in H at 2. rewrite length_map, length_seq in H. exact H.
  - intros chunk Hin. apply filter_In in Hin. apply Hlen, Hin.
  - intros Hshort. destruct (filter long wins) as [|c l] eqn:E; [reflexivity|].
    assert (Hin : In c (filter long wins)) by (rewrite E; left; reflexivity).
    apply filter_In in Hin. destruct Hin as [Hin Hlong].
    apply Hlen in Hin. unfold long in Hlong. apply Nat.ltb_lt in Hlong. lia.
Qed.

Lemma create_chunks_bounds_witness :
  exists chunks,
    create_chunks (lit "hello world") 500 50 = Returned chunks /\
    chunks = [].
Proof.
  destruct (create_chunks_bounds (lit "hello world") 500 50 ltac:(lia))
    as (chunks & E & _ & _ & H).
  exists chunks. split; [exact E|]. apply H. simpl. lia.
Defined.

(** X4: the chunks depend on the tokens only: a text and the single-space
    join of its tokens give the same result, whatever the parameters. *)
Theorem create_chunks_whitespace_layout (t : text) (cs ov : Z) :
  create_chunks (join (lit " ") (split t)) cs ov = create_chunks t cs ov.
Proof.
  unfold create_chunks. rewrite (split_join (split t) (split_tokens t)).
  reflexivity.
Qed.

(** X1: with a chunk size of 26 or more, as the 500 of the script, only
    tokens among the last 25 of a text can be lost: every token that at
    least 25 tokens follow is in a chunk that [create_chunks] returns, at
    its place in that chunk. *)
Theorem create_chunks_keeps_all_but_tail (t : text) (cs ov : Z) :
  (0 <= ov < cs)%Z -> (26 <= cs)%Z ->
  exists chunks,
    create_chunks t cs ov = Returned chunks /\
    forall j w,
      nth_error (split t) j = Some w ->
      j + 26 <= length (split t) ->
      exists i chunk,
        In chunk chunks /\ i <= j /\
        chunk = join (lit " ") (tokens_from (split t) (Z.to_nat cs) i) /\
        nth_error (split chunk) (j - i) = Some w.
Proof.
  intros Hv Hcs. eexists. split; [apply create_chunks_windows; lia|].
  intros j w Hj Htail.
  set (s := Z.to_nat (cs - ov)).
  assert (Hs : 0 < s <= Z.to_nat cs) by (subst s; lia).
  pose proof (Nat.div_mod_eq j s) as E.
  pose proof (Nat.mod_upper_bound j s ltac:(lia)) as U.
  assert (Hk : j / s * s <= j < j / s * s + s) by nia.
  exists (j / s * s), (join (lit " ")
                            (tokens_from (split t) (Z.to_nat cs) (j / s * s))).
  split; [|split; [lia|split; [reflexivity|]]].
  - apply filter_In. split.
    + apply in_map_iff. exists (j / s). split; [reflexivity|].
      apply in_seq. split; [lia|]. simpl. apply window_count_lt; lia.
    + apply long_join; [apply tokens_from_tokens|].
      unfold tokens_from. rewrite length_firstn, length_skipn. lia.
  - rewrite split_join by apply tokens_from_tokens.
    rewrite tokens_from_nth by lia.
    replace (j / s * s + (j - j / s * s)) with j by lia. exact Hj.
Qed.

Lemma create_chunks_keeps_all_but_tail_witness :
  exists chunks,
    create_chunks thousand_words 500 50 = Returned chunks /\
    exists i chunk,
      In chunk chunks /\ i <= 974 /\
      chunk = join (lit " ")
                   (tokens_from (split thousand_words) (Z.to_nat 500) i) /\
      nth_error (split chunk) (974 - i) = Some (lit "w").
Proof.
  destruct (create_chunks_keeps_all_but_tail thousand_words 500 50
              ltac:(lia) ltac:(lia)) as (chunks & E & H).
  exists chunks. split; [exact E|].
  apply (H 974 (lit "w")); vm_compute; [reflexivity|lia].
Defined.

End ChunkerExtras.

(** ** The IPV4, EMAIL and MAC_ADDR patterns *)

Section PatternRules.

(** Repetitions of a class, bounded or not. *)
Lemma rounds_within (p : ascii -> bool) (lo : nat) (hi : option nat)
      (prev : option ascii) (u rest : text) :
  rounds (shape (Class p)) lo hi prev u rest <->
  Forall (fun c => p c = true) u /\ lo <= length u /\ within hi (length u).
Proof.
  split.
  - intros H.
    induction H as [hi prev rest|lo hi prev u v rest Hex Hne Su Hrest IH].
    + repeat split; [constructor|simpl; lia|].
      destruct hi; simpl; [lia|exact I].
    + destruct IH as (Hv & Hlo & Hhi). destruct Su as (c & -> & Hp).
      repeat split.
      * constructor; assumption.
      * simpl. lia.
      * destruct hi as [[|h]|]; simpl in *; try discriminate; try exact I. lia.
  - intros (Hu & Hlo & Hhi). revert lo hi prev Hlo Hhi.
    induction Hu as [|c u Hc Hu IH]; intros lo hi prev Hlo Hhi.
    + simpl in Hlo. replace lo with 0 by lia. constructor.
    + apply (rounds_more (shape (Class p)) lo hi prev [c] u rest).
      * destruct hi as [[|h]|]; simpl in *; try reflexivity. lia.
      * discriminate.
      * exists c. auto.
      * apply IH; [simpl in Hlo; lia|].
        destruct hi as [[|h]|]; simpl in *; try exact I; lia.
  Qed.

(** Exactly [n] rounds of a pattern that does not look around. *)
Lemma rounds_blocks (body : option ascii -> text -> text -> Prop)
      (P : text -> Prop) :
  (forall prev u rest, body prev u rest <-> P u) ->
  forall n prev u rest,
    rounds body n (Some n) prev u rest <->
    exists parts,
      length parts = n /\ Forall (fun x => x <> [] /\ P x) parts /\
      u = List.concat parts.
Proof.
  intros HS n prev u rest. split.
  - intros H. remember (Some n) as hi eqn:Hhi. revert Hhi.
    remember n as lo eqn:Hlo in H. revert n Hlo.
    induction H as [hi prev rest|lo hi prev u v rest Hex Hne Su Hrest IH];
      intros n Hlo Hhi; subst.
    + exists []. repeat split. constructor.
    + destruct n as [|n]; [discriminate Hex|].
      destruct (IH n eq_refl eq_refl) as (parts & Hlen & Hall & ->).
      exists (u :: parts). repeat split.
      * simpl. rewrite Hlen. reflexivity.
      * constructor; [|exact Hall]. split; [exact Hne|].
        exact (proj1 (HS _ _ _) Su).
  - intros (parts & Hlen & Hall & ->). revert n prev Hlen.
    induction Hall as [|x parts [Hne Hx] Hall IH]; intros n prev Hlen.
    + simpl in Hlen. subst n. constructor.
    + simpl in Hlen. destruct n as [|n]; [discriminate|]. injection Hlen as Hlen.
      simpl List.concat.
      apply (rounds_more body (S n) (Some (S n)) prev x
                         (List.concat parts) rest).
      * reflexivity.
      * exact Hne.
      * apply HS. exact Hx.
      * apply IH. exact Hlen.
Qed.

(** A pattern without [\b] matches a word whatever stands around it. *)
Lemma context_free_shape (r : regex) :
  context_free r = true ->
  forall prev u rest prev' rest',
    shape r prev u rest -> shape r prev' u rest'.
Proof.
  induction r as [|p| |a IHa b IHb|a IHa b IHb|lo hi a IHa];
    intros Hcf prev u rest prev' rest'; cbn [shape context_free] in *.
  - auto.
  - auto.
  - discriminate.
  - apply andb_prop in Hcf. destruct Hcf as [Ha Hb].
    intros (u1 & u2 & -> & H1 & H2). exists u1, u2. split; [reflexivity|].
    split; [eapply IHa|eapply IHb]; eauto.
  - apply andb_prop in Hcf. destruct Hcf as [Ha Hb].
    intros [H|H]; [left; eapply IHa|right; eapply IHb]; eauto.
  - intros H. revert prev' rest'.
    induction H as [hi prev rest|lo hi prev u v rest Hex Hne Su Hrest IH];
      intros prev' rest'.
    + constructor.
    + constructor; try assumption.
      * eapply IHa; eauto.
      * apply IH.
Qed.

Lemma first_of_app (u v : text) :
  u <> [] -> hd_error (u ++ v) = hd_error u.
Proof. destruct u; [congruence|reflexivity]. Qed.

Lemma xorb_true_l_false (b : bool) : xorb b true = true <-> b = false.
Proof. destruct b; simpl; split; congruence. Qed.

Lemma xorb_true_r_false (b : bool) : xorb true b = true <-> b = false.
Proof. destruct b; simpl; split; congruence. Qed.

Lemma digit_is_word (c : ascii) : is_digit c = true -> is_word c = true.
Proof.
  unfold is_word. intros ->. reflexivity.
Qed.

Lemma octet_first (d rest : text) :
  octet d -> word_char (hd_error (d ++ rest)) = true.
Proof.
  intros [Hd [Hlen _]]. destruct d as [|c d]; [simpl in Hlen; lia|].
  simpl. apply digit_is_word. inversion Hd; assumption.
Qed.

Lemma octet_last (prev : option ascii) (d : text) :
  octet d -> word_char (last_char prev d) = true.
Proof.
  intros [Hd [Hlen _]].
  assert (Hne : d <> []) by (destruct d; [simpl in Hlen; lia|discriminate]).
  destruct (exists_last Hne) as (d0 & z & ->).
  rewrite last_char_app. simpl.
  apply Forall_app in Hd. destruct Hd as [_ Hz].
  apply digit_is_word. inversion Hz; assumption.
Qed.

(** The group [\d{1,3}\.] of the IPV4 pattern. *)
Lemma shape_octet_dot (prev : option ascii) (u rest : text) :
  shape (Repeat 1 (Some 3) digit ;; chr ".") prev u rest <->
  exists d, u = d ++ ["."%char] /\ octet d.
Proof.
  unfold digit, chr. cbn [shape]. split.
  - intros (u1 & u2 & -> & H1 & c & -> & Hc).
    apply rounds_within in H1. destruct H1 as (Hd & Hlo & Hhi).
    apply Ascii.eqb_eq in Hc. subst c.
    exists u1. split; [reflexivity|]. split; [exact Hd|]. simpl in Hhi. lia.
  - intros (d & -> & Hd & Hlen). exists d, ["."%char].
    split; [reflexivity|]. split.
    + apply rounds_within. repeat split; simpl; try assumption; lia.
    + exists "."%char. split; reflexivity.
Qed.

(** X5: the IPV4 pattern matches a part [w] of a text exactly when [w] is
    four groups of one to three digits separated by dots, no word
    character stands before [w] and none after it.  The groups are not
    checked to be at most 255. *)
Theorem ipv4_rule (before w after : text) :
  matches_span IPV4 before w after <->
  ipv4_shape w /\
  word_char (last_char None before) = false /\
  word_char (hd_error after) = false.
Proof.
  rewrite matches_span_shape. set (prev := last_char None before).
  unfold IPV4. cbn [shape]. split.
  - intros (u0 & r0 & -> & [-> Hb0] & g & r1 & -> & Hg
            & d & r2 & -> & Hd & -> & Hb1).
    apply (rounds_blocks _ _ (fun p u r => shape_octet_dot p u r)) in Hg.
    destruct Hg as (parts & Hlen & Hall & ->).
    destruct parts as [|p1 [|p2 [|p3 [|]]]]; try discriminate Hlen.
    inversion Hall as [|? ? [_ (a & -> & Ha)] Hall2]; subst.
    inversion Hall2 as [|? ? [_ (b & -> & Hb)] Hall3]; subst.
    inversion Hall3 as [|? ? [_ (c & -> & Hc)] _]; subst.
    apply rounds_within in Hd. unfold digit in Hd.
    assert (Hd' : octet d) by (destruct Hd as (? & ? & ?); split; simpl in *; [assumption|lia]).
    cbn [List.concat app] in *. rewrite !app_nil_r in *.
    rewrite <- !app_assoc in *. cbn [app] in *.
    split; [|split].
    + exists a, b, c, d. auto.
    + unfold at_boundary in Hb0. cbn [fst snd] in Hb0.
      rewrite (octet_first a _ Ha) in Hb0.
      apply xorb_true_l_false. exact Hb0.
    + unfold at_boundary in Hb1. cbn [fst snd] in Hb1.
      rewrite (octet_last _ d Hd') in Hb1.
      apply xorb_true_r_false. exact Hb1.
  - intros ((a & b & c & d & -> & Ha & Hb & Hc & Hd) & Hprev & Hnext).
    exists [], (a ++ "."%char :: b ++ "."%char :: c ++ "."%char :: d).
    split; [reflexivity|]. split.
    { split; [reflexivity|]. unfold at_boundary. cbn [fst snd].
      rewrite <- app_assoc.
      rewrite (octet_first a _ Ha). apply xorb_true_l_false. exact Hprev. }
    exists ((a ++ ["."%char]) ++ (b ++ ["."%char]) ++ (c ++ ["."%char])), d.
    split; [rewrite <- !app_assoc; reflexivity|]. split.
    { apply (rounds_blocks _ _ (fun p u r => shape_octet_dot p u r)).
      exists [a ++ ["."%char]; b ++ ["."%char]; c ++ ["."%char]].
      split; [reflexivity|]. split.
      - repeat constructor; try (intros E; apply app_eq_nil in E;
                                 destruct E; discriminate); eauto.
      - simpl. rewrite app_nil_r. reflexivity. }
    exists d, []. split; [rewrite app_nil_r; reflexivity|]. split.
    { apply rounds_within. destruct Hd as [Hd Hlen].
      repeat split; simpl; try assumption; lia. }
    split; [reflexivity|]. unfold at_boundary. cbn [fst snd].
    rewrite (octet_last _ d Hd). apply xorb_true_r_false. exact Hnext.
Qed.

End PatternRules.

Section PatternRulesMore.

(** The group [[0-9A-Fa-f]{2}[:-]] of the MAC_ADDR pattern. *)
Lemma shape_mac_group (prev : option ascii) (u rest : text) :
  shape (Repeat 2 (Some 2) (Class hex) ;; Class (one_of ":-")) prev u rest <->
  mac_group u.
Proof.
  cbn [shape]. split.
  - intros (u1 & u2 & -> & H1 & s & -> & Hs).
    apply rounds_within in H1. destruct H1 as (Hh & Hlo & Hhi).
    simpl in Hhi. destruct u1 as [|x [|y [|z u1]]]; simpl in *; try lia.
    inversion Hh as [|? ? Hx Hh']; subst. inversion Hh' as [|? ? Hy _]; subst.
    exists x, y, s. auto.
  - intros (x & y & s & -> & Hx & Hy & Hs).
    exists [x; y], [s]. split; [reflexivity|]. split.
    + apply rounds_within. repeat split; simpl; auto.
    + exists s. auto.
Qed.

Lemma mac_shape_of_match (before w after : text) :
  matches_span MAC_ADDR before w after -> mac_shape w.
Proof.
  rewrite matches_span_shape. unfold MAC_ADDR. cbn [shape].
  intros (u1 & u2 & -> & H1 & H2).
  apply (rounds_blocks _ _ (fun p u r => shape_mac_group p u r)) in H1.
  destruct H1 as (groups & Hlen & Hall & ->).
  apply rounds_within in H2. destruct H2 as (Hh & Hlo & Hhi).
  simpl in Hhi. destruct u2 as [|x [|y [|z u2]]]; simpl in *; try lia.
  inversion Hh as [|? ? Hx Hh']; subst. inversion Hh' as [|? ? Hy _]; subst.
  exists groups, x, y. repeat split; try assumption.
  eapply Forall_impl; [|exact Hall]. intros g [_ Hg]. exact Hg.
Qed.

Lemma match_of_mac_shape (before w after : text) :
  mac_shape w -> matches_span MAC_ADDR before w after.
Proof.
  rewrite matches_span_shape. unfold MAC_ADDR. cbn [shape].
  intros (groups & x & y & -> & Hlen & Hall & Hx & Hy).
  exists (List.concat groups), [x; y]. split; [reflexivity|]. split.
  - apply (rounds_blocks _ _ (fun p u r => shape_mac_group p u r)).
    exists groups. repeat split; try assumption.
    eapply Forall_impl; [|exact Hall]. intros g Hg. split; [|exact Hg].
    destruct Hg as (? & ? & ? & -> & _). discriminate.
  - apply rounds_within. repeat split; simpl; auto.
Qed.

(** X6: the MAC_ADDR pattern matches a part [w] of a text exactly when [w]
    is five groups of two hexadecimal digits and a colon or hyphen,
    followed by two hexadecimal digits, whatever stands around [w]; the
    five separators need not be the same. *)
Theorem mac_addr_rule (before w after : text) :
  matches_span MAC_ADDR before w after <-> mac_shape w.
Proof.
  split; [apply mac_shape_of_match|apply match_of_mac_shape].
Qed.

(** X7: the EMAIL pattern matches a part [w] of a text exactly when [w] is
    a local part of [A-Za-z0-9._%+-], [@], a domain of [A-Za-z0-9.-], a
    dot and a last label of two or more letters or [|]; when moreover
    exactly one of the character before [w] and the first character of
    [w] is a word character; and likewise for the last character of [w]
    and the character after [w]. *)
Theorem email_rule (before w after : text) :
  matches_span EMAIL before w after <->
  email_shape w /\
  xorb (word_char (last_char None before)) (word_char (hd_error w)) = true /\
  xorb (word_char (last_char None w)) (word_char (hd_error after)) = true.
Proof.
  rewrite matches_span_shape. set (prev := last_char None before).
  unfold EMAIL, chr. cbn [shape]. split.
  - intros (u0 & r0 & -> & [-> Hb0] & loc & r1 & -> & Hloc
            & at_ & r2 & -> & (c1 & -> & Hc1)
            & dom & r3 & -> & Hdom & dot & r4 & -> & (c2 & -> & Hc2)
            & tld & r5 & -> & Htld & -> & Hb1).
    apply rounds_within in Hloc, Hdom, Htld.
    destruct Hloc as (Hloc & Hl1 & _). destruct Hdom as (Hdom & Hl2 & _).
    destruct Htld as (Htld & Hl3 & _).
    apply Ascii.eqb_eq in Hc1, Hc2. subst c1 c2.
    assert (Hne : tld <> []) by (destruct tld; [simpl in Hl3; lia|discriminate]).
    assert (Hne1 : loc <> []) by (destruct loc; [simpl in Hl1; lia|discriminate]).
    rewrite app_nil_r in *. cbn [app] in *.
    split; [|split].
    + exists loc, dom, tld. repeat split; assumption.
    + unfold at_boundary in Hb0. cbn [fst snd] in Hb0.
      refine (eq_trans _ Hb0). f_equal. f_equal.
      rewrite <- app_assoc. rewrite !first_of_app by exact Hne1. reflexivity.
    + unfold at_boundary in Hb1. cbn [fst snd] in Hb1.
      refine (eq_trans _ Hb1). f_equal. f_equal.
      replace (loc ++ "@"%char :: dom ++ "."%char :: tld)
        with ((loc ++ "@"%char :: dom ++ ["."%char]) ++ tld)
        by (rewrite <- !app_assoc; cbn [app]; rewrite <- !app_assoc; reflexivity).
      rewrite last_char_tail by exact Hne.
      rewrite <- (app_nil_l tld) at 2.
      rewrite last_char_tail by exact Hne. reflexivity.
  - intros ((loc & dom & tld & -> & Hloc & Hl1 & Hdom & Hl2 & Htld & Hl3)
            & Hstart & Hend).
    assert (Hne : tld <> []) by (destruct tld; [simpl in Hl3; lia|discriminate]).
    assert (Hne1 : loc <> []) by (destruct loc; [simpl in Hl1; lia|discriminate]).
    exists [], (loc ++ "@"%char :: dom ++ "."%char :: tld).
    split; [reflexivity|]. split.
    { split; [reflexivity|]. unfold at_boundary. cbn [fst snd].
      refine (eq_trans _ Hstart). f_equal. f_equal.
      rewrite <- app_assoc. rewrite !first_of_app by exact Hne1. reflexivity. }
    exists loc, ("@"%char :: dom ++ "."%char :: tld).
    split; [reflexivity|]. split.
    { apply rounds_within. repeat split; simpl; auto. }
    exists ["@"%char], (dom ++ "."%char :: tld). split; [reflexivity|]. split.
    { exists "@"%char. split; reflexivity. }
    exists dom, ("."%char :: tld). split; [reflexivity|]. split.
    { apply rounds_within. repeat split; simpl; auto. }
    exists ["."%char], tld. split; [reflexivity|]. split.
    { exists "."%char. split; reflexivity. }
    exists tld, []. split; [rewrite app_nil_r; reflexivity|]. split.
    { apply rounds_within. repeat split; simpl; auto. }
    split; [reflexivity|]. unfold at_boundary. cbn [fst snd].
    refine (eq_trans _ Hend). f_equal. f_equal.
    replace (loc ++ "@"%char :: dom ++ "."%char :: tld)
      with ((loc ++ "@"%char :: dom ++ ["."%char]) ++ tld)
      by (rewrite <- !app_assoc; cbn [app]; rewrite <- !app_assoc; reflexivity).
    rewrite (last_char_tail None) by exact Hne.
    rewrite <- (app_nil_l tld) at 1.
    apply last_char_tail. exact Hne.
Qed.

End PatternRulesMore.

(** ** What a pass replaces *)

Section PassSoundness.

Lemma firstn_length_app {A : Type} (a b : list A) :
  firstn (length a) (a ++ b) = a.
Proof. induction a as [|x a IH]; simpl; [reflexivity|]. rewrite IH. reflexivity. Qed.

Lemma skipn_length_app {A : Type} (a b : list A) :
  skipn (length a) (a ++ b) = b.
Proof. induction a as [|x a IH]; simpl; [reflexivity|exact IH]. Qed.

Lemma skipn_length_plus {A : Type} (a b : list A) (n : nat) :
  skipn (length a + n) (a ++ b) = skipn n b.
Proof. induction a as [|x a IH]; simpl; [reflexivity|exact IH]. Qed.

(** What the matcher reports at a position is a non-empty word when the
    pattern cannot match the empty word. *)
Lemma match_here_word (r : regex) (prev p' : option ascii) (s s' : text) :
  (forall st st', In st' (run r st) -> length (snd st') < length (snd st)) ->
  match_here r (prev, s) = Some (p', s') ->
  exists w,
    w <> [] /\ s = w ++ s' /\ p' = last_char prev w /\
    length s - length s' = length w /\
    In (last_char prev w, s') (run r (prev, w ++ s')).
Proof.
  intros Hadv H. apply match_here_some in H.
  pose proof (Hadv _ _ H) as Hlt. simpl in Hlt.
  pose proof H as Hd. apply run_denote in Hd.
  destruct (denote_consumed _ _ _ Hd) as (w & Hw & Hp). simpl in Hw, Hp.
  exists w. subst s p'. rewrite length_app in *. repeat split.
  - intros ->. simpl in Hlt. lia.
  - lia.
  - exact H.
Qed.

Lemma scan_sound (r : regex) :
  (forall st st', In st' (run r st) -> length (snd st') < length (snd st)) ->
  forall s pre skip,
    skip <= length s ->
    in_order (length pre + skip)
             (scan r skip (length pre) (last_char None pre) s)
             (length pre + length s) /\
    forall b e,
      In (b, e) (scan r skip (length pre) (last_char None pre) s) ->
      matches_span r (firstn b (pre ++ s))
                   (firstn (e - b) (skipn b (pre ++ s)))
                   (skipn e (pre ++ s)).
Proof.
  intros Hadv. induction s as [|c t IH]; intros pre skip Hk.
  - simpl in Hk. replace skip with 0 by lia. cbn [scan].
    destruct (match_here r (last_char None pre, [])) as [[p' s']|] eqn:E.
    + exfalso. apply match_here_some, Hadv in E. simpl in E. lia.
    + split; [simpl; lia|]. intros b e [].
  - assert (IH' : forall k,
               k <= length t ->
               in_order (S (length pre) + k)
                        (scan r k (S (length pre)) (Some c) t)
                        (S (length pre) + length t) /\
               forall b e,
                 In (b, e) (scan r k (S (length pre)) (Some c) t) ->
                 matches_span r (firstn b (pre ++ c :: t))
                              (firstn (e - b) (skipn b (pre ++ c :: t)))
                              (skipn e (pre ++ c :: t))).
    { intros k Hk'. specialize (IH (pre ++ [c]) k Hk').
      rewrite length_app, last_char_app, <- app_assoc in IH.
      simpl in IH. rewrite Nat.add_1_r in IH. exact IH. }
    clear IH. simpl length.
    destruct skip as [|k].
    + destruct (match_here r (last_char None pre, c :: t)) as [[p' s']|] eqn:E.
      * rewrite (scan_hit _ _ _ _ _ _ _ E).
        destruct (match_here_word r _ _ _ _ Hadv E)
          as (w & Hne & Hs & Hp & Hn & Hin).
        rewrite Hn. destruct w as [|c' w']; [congruence|].
        simpl in Hs. injection Hs as <- Ht. simpl length. cbn [pred].
        destruct (IH' (length w')) as [Hord Hspans].
        { rewrite Ht, length_app. lia. }
        split.
        -- cbn [in_order]. split; [lia|]. split; [lia|].
           replace (length pre + S (length w'))
             with (S (length pre) + length w') by lia.
           replace (length pre + S (length t))
             with (S (length pre) + length t) by lia.
           exact Hord.
        -- intros b e [[= <- <-]|Hin']; [|apply Hspans; exact Hin'].
           rewrite firstn_length_app, skipn_length_app.
           replace (length pre + S (length w') - length pre)
             with (length (c :: w')) by (simpl; lia).
           rewrite skipn_length_plus. subst t.
           change (c :: w' ++ s') with ((c :: w') ++ s').
           rewrite firstn_length_app.
           change (S (length w')) with (length (c :: w')).
           rewrite skipn_length_app. exact Hin.
      * rewrite (scan_miss _ _ _ _ _ E).
        destruct (IH' 0 ltac:(lia)) as [Hord Hspans].
        split; [|exact Hspans].
        destruct (scan r 0 (S (length pre)) (Some c) t) as [|[b e] rest].
        -- simpl in *. lia.
        -- cbn [in_order] in *. destruct Hord as (H1 & H2 & H3).
           split; [lia|]. split; [lia|].
           replace (length pre + S (length t))
             with (S (length pre) + length t) by lia.
           exact H3.
    + rewrite scan_skip.
      destruct (IH' k ltac:(simpl in Hk; lia)) as [Hord Hspans].
      split; [|exact Hspans].
      replace (length pre + S k) with (S (length pre) + k) by lia.
      replace (length pre + S (length t))
        with (S (length pre) + length t) by lia.
      exact Hord.
Qed.

(** X8: a pass replaces nothing but matches.  The spans that the pass of a
    registered pattern replaces are non-empty, stand in order without
    overlapping, lie within the text, and each of them is a match of the
    pattern at its place in the text. *)
Theorem pass_replaces_only_matches (name : string) (pat : regex) (s : text) :
  In (name, pat) patterns ->
  in_order 0 (finditer pat s) (length s) /\
  forall b e,
    In (b, e) (finditer pat s) ->
    matches_span pat (firstn b s) (firstn (e - b) (skipn b s)) (skipn e s).
Proof.
  intros Hin.
  exact (scan_sound pat (fun st st' => pattern_advances name pat st st' Hin)
                    s [] 0 (Nat.le_0_l _)).
Qed.

Lemma pass_replaces_only_matches_witness :
  in_order 0 (finditer IPV4 (lit "Host 10.0.0.5 down"))
           (length (lit "Host 10.0.0.5 down")) /\
  matches_span IPV4 (lit "Host ") (lit "10.0.0.5") (lit " down").
Proof.
  destruct (pass_replaces_only_matches "IPV4" IPV4 (lit "Host 10.0.0.5 down"))
    as [Hord Hspans].
  - left. reflexivity.
  - split; [exact Hord|].
    apply (Hspans 5 13). vm_compute. left. reflexivity.
Defined.

End PassSoundness.

(** ** What a pass writes *)

Section PassOutput.

Lemma scan_lower (r : regex) (s : text) :
  forall skip pos prev b e rest,
    scan r skip pos prev s = (b, e) :: rest -> pos + skip <= b.
Proof.
  induction s as [|c t IH]; intros skip pos prev b e rest H.
  - destruct skip; cbn [scan] in H; [|discriminate].
    destruct (match_here r (prev, [])) as [[p' s']|]; [|discriminate].
    injection H as <- _ _. lia.
  - destruct skip as [|k].
    + destruct (match_here r (prev, c :: t)) as [[p' s']|] eqn:E.
      * rewrite (scan_hit _ _ _ _ _ _ _ E) in H. injection H as <- _ _. lia.
      * rewrite (scan_miss _ _ _ _ _ E) in H. apply IH in H. lia.
    + rewrite scan_skip in H. apply IH in H. lia.
Qed.

Lemma splice_step (repl pre : text) (c : ascii) (t : text)
      (spans : list (nat * nat)) :
  match spans with
  | [] => True
  | (b, _) :: _ => S (length pre) <= b
  end ->
  splice repl (pre ++ c :: t) (length pre) spans
  = c :: splice repl (pre ++ c :: t) (S (length pre)) spans.
Proof.
  assert (Hs : skipn (S (length pre)) (pre ++ c :: t) = t).
  { replace (S (length pre)) with (length pre + 1) by lia.
    rewrite skipn_length_plus. reflexivity. }
  destruct spans as [|[b e] rest]; intros Hb; cbn [splice].
  - rewrite skipn_length_app, Hs. reflexivity.
  - rewrite skipn_length_app, Hs.
    replace (b - length pre) with (S (b - S (length pre))) by lia.
    reflexivity.
Qed.

(** The substitution, read from left to right. *)
Lemma splice_scan_emit (r : regex) (repl : text) :
  (forall st st', In st' (run r st) -> length (snd st') < length (snd st)) ->
  forall s pre skip prev,
    splice repl (pre ++ s) (length pre + skip) (scan r skip (length pre) prev s)
    = emit r repl skip prev s.
Proof.
  intros Hadv. induction s as [|c t IH]; intros pre skip prev.
  - destruct skip as [|k]; cbn [scan emit].
    + destruct (match_here r (prev, [])) as [[p' s']|] eqn:E.
      * exfalso. apply match_here_some, Hadv in E. simpl in E. lia.
      * cbn [splice]. rewrite app_nil_r, Nat.add_0_r. apply skipn_all.
    + cbn [splice]. apply skipn_all2. rewrite app_nil_r. lia.
  - assert (IH' : forall k prev',
               splice repl (pre ++ c :: t) (S (length pre) + k)
                      (scan r k (S (length pre)) prev' t)
               = emit r repl k prev' t).
    { intros k prev'. specialize (IH (pre ++ [c]) k prev').
      rewrite length_app, <- app_assoc in IH. simpl in IH.
      rewrite Nat.add_1_r in IH. exact IH. }
    destruct skip as [|k].
    + rewrite Nat.add_0_r.
      destruct (match_here r (prev, c :: t)) as [[p' s']|] eqn:E.
      * rewrite (scan_hit _ _ _ _ _ _ _ E). cbn [emit]. rewrite E.
        cbn [splice]. rewrite Nat.sub_diag. cbn [firstn app]. f_equal.
        apply match_here_some, Hadv in E. cbn [snd] in E.
        set (n := length (c :: t) - length s') in *.
        replace (length pre + n) with (S (length pre) + pred n) by lia.
        apply IH'.
      * rewrite (scan_miss _ _ _ _ _ E). cbn [emit]. rewrite E.
        rewrite splice_step.
        -- f_equal. rewrite <- (IH' 0 (Some c)), Nat.add_0_r. reflexivity.
        -- destruct (scan r 0 (S (length pre)) (Some c) t) as [|[b e] rest] eqn:Es;
             [exact I|]. apply scan_lower in Es. lia.
    + rewrite scan_skip. cbn [emit]. rewrite <- IH'. f_equal. lia.
Qed.

Lemma sub_emit (r : regex) (repl s : text) :
  (forall st st', In st' (run r st) -> length (snd st') < length (snd st)) ->
  sub r repl s = emit r repl 0 None s.
Proof.
  intros Hadv. unfold sub, finditer.
  exact (splice_scan_emit r repl Hadv s [] 0 None).
Qed.

Lemma emit_skip (r : regex) (repl u s : text) (prev : option ascii) :
  emit r repl (length u) prev (u ++ s) = emit r repl 0 (last_char prev u) s.
Proof.
  revert prev. induction u as [|c u IH]; intros prev; [reflexivity|].
  simpl length. cbn [app emit]. rewrite IH. reflexivity.
Qed.

Lemma emit_hit (r : regex) (repl : text) (prev p' : option ascii)
      (s s' : text) :
  (forall st st', In st' (run r st) -> length (snd st') < length (snd st)) ->
  match_here r (prev, s) = Some (p', s') ->
  length s' < length s /\ emit r repl 0 prev s = repl ++ emit r repl 0 p' s'.
Proof.
  intros Hadv E.
  destruct (match_here_word r _ _ _ _ Hadv E) as (w & Hne & -> & -> & Hn & _).
  split; [rewrite length_app; destruct w; [congruence|simpl; lia]|].
  destruct w as [|c w]; [congruence|].
  cbn [app] in E, Hn |- *. cbn [emit]. rewrite E, Hn.
  simpl length. cbn [pred]. f_equal.
  exact (emit_skip r repl w s' (Some c)).
Qed.

Lemma emit_miss (r : regex) (repl : text) (prev : option ascii) (s : text) :
  match_here r (prev, s) = None ->
  emit r repl 0 prev s
  = match s with
    | [] => []
    | c :: t => c :: emit r repl 0 (Some c) t
    end.
Proof. intros E. destruct s; cbn [emit]; rewrite E; reflexivity. Qed.

Lemma app_eq_app_le {A : Type} (a x b y : list A) :
  a ++ x = b ++ y -> length a <= length b ->
  exists b', b = a ++ b' /\ x = b' ++ y.
Proof.
  revert b. induction a as [|h a IH]; intros b H Hlen.
  - exists b. auto.
  - destruct b as [|h' b]; [simpl in Hlen; lia|].
    simpl in H. injection H as <- H.
    destruct (IH b H ltac:(simpl in Hlen; lia)) as (b' & -> & ->).
    exists b'. auto.
Qed.

(** A word without brackets and with a trigger character lies clear of
    every occurrence of a placeholder. *)
Lemma word_outside_placeholder (R pre post before w after : text) :
  bracketed R = true ->
  Forall (fun c => not_bracket c = true) w ->
  Exists (fun c => trigger c = true) w ->
  before ++ w ++ after = pre ++ R ++ post ->
  length before + length w <= length pre \/
  length pre + length R <= length before.
Proof.
  intros HR Hro Hrq HT.
  destruct (bracketed_spec R HR) as (Hopen & Hclose & Hnone).
  rewrite Forall_forall in Hro.
  assert (HlenR : 0 < length R).
  { destruct R; [discriminate Hopen|simpl; lia]. }
  destruct (le_lt_dec (length before + length w) (length pre)) as [|Ha];
    [left; assumption|].
  destruct (le_lt_dec (length pre + length R) (length before)) as [|Hb];
    [right; assumption|].
  exfalso.
  assert (Hstart : length pre < length before).
  { destruct (le_lt_dec (length before) (length pre)) as [Hle|]; [|assumption].
    exfalso.
    assert (E : nth_error w (length pre - length before) = Some "["%char).
    { rewrite <- (nth_error_middle before w after) by lia.
      replace (length before + (length pre - length before))
        with (length pre + 0) by lia.
      rewrite HT, nth_error_middle by lia. exact Hopen. }
    apply nth_error_In in E. specialize (Hro _ E). discriminate Hro. }
  assert (Hend : length before + length w <= length pre + length R - 1).
  { destruct (le_lt_dec (length before + length w)
                        (length pre + length R - 1)) as [|Hgt];
      [assumption|]. exfalso.
    assert (E : nth_error w (length pre + length R - 1 - length before)
                = Some "]"%char).
    { rewrite <- (nth_error_middle before w after) by lia.
      replace (length before + (length pre + length R - 1 - length before))
        with (length pre + (length R - 1)) by lia.
      rewrite HT, nth_error_middle by lia. exact Hclose. }
    apply nth_error_In in E. specialize (Hro _ E). discriminate Hro. }
  apply Exists_exists in Hrq. destruct Hrq as (c & Hc & Htrig).
  apply In_nth_error in Hc. destruct Hc as (i & Hi).
  assert (Hilt : i < length w) by (apply nth_error_Some; congruence).
  assert (E : nth_error R (length before + i - length pre) = Some c).
  { rewrite <- (nth_error_middle pre R post) by lia.
    replace (length pre + (length before + i - length pre))
      with (length before + i) by lia.
    rewrite <- HT, nth_error_middle by lia. exact Hi. }
  apply nth_error_In in E. rewrite (Hnone _ E) in Htrig. discriminate.
Qed.

End PassOutput.

(** ** No match left in what a pass writes *)

Section Contexts.

Lemma last_char_nonempty (p p' : option ascii) (w : text) :
  w <> [] -> last_char p w = last_char p' w.
Proof. destruct w as [|c w]; [congruence|reflexivity]. Qed.

Lemma word_last_char (p p' : option ascii) (w : text) :
  word_char p = word_char p' ->
  word_char (last_char p w) = word_char (last_char p' w).
Proof. destruct w; [auto|reflexivity]. Qed.

Lemma word_first (u a a' : text) :
  word_char (hd_error a) = word_char (hd_error a') ->
  word_char (hd_error (u ++ a)) = word_char (hd_error (u ++ a')).
Proof. destruct u; auto. Qed.

Lemma hd_error_app_l {A : Type} (x : A) (l l' : list A) :
  hd_error l = Some x -> hd_error (l ++ l') = Some x.
Proof. destruct l; [discriminate|auto]. Qed.

(** A pattern reads what stands around a word through [\b] only: through
    whether the character before the word and the one after it are word
    characters. *)
Lemma shape_context (r : regex) :
  forall p u a p' a',
    word_char p = word_char p' ->
    word_char (hd_error a) = word_char (hd_error a') ->
    shape r p u a -> shape r p' u a'.
Proof.
  induction r as [|q| |x IHx y IHy|x IHx y IHy|lo hi x IHx];
    intros p u a p' a' Hp Ha; cbn [shape].
  - auto.
  - auto.
  - intros [-> H]. split; [reflexivity|].
    unfold at_boundary in *. cbn [fst snd] in *.
    rewrite <- Hp, <- Ha. exact H.
  - intros (u1 & u2 & -> & H1 & H2). exists u1, u2.
    split; [reflexivity|]. split.
    + apply (IHx p u1 (u2 ++ a));
        [exact Hp|apply word_first; exact Ha|exact H1].
    + apply (IHy (last_char p u1) u2 a);
        [apply word_last_char; exact Hp|exact Ha|exact H2].
  - intros [H|H]; [left; eapply IHx|right; eapply IHy]; eauto.
  - intros H. revert p' a' Hp Ha.
    induction H as [hi prev rest|lo hi prev u v rest Hex Hne Su Hrest IH];
      intros p' a' Hp Ha.
    + constructor.
    + constructor; try assumption.
      * apply (IHx prev u (v ++ rest));
          [exact Hp|apply word_first; exact Ha|exact Su].
      * apply IH; [apply word_last_char; exact Hp|exact Ha].
Qed.

Lemma starts_boundary_shape (r : regex) :
  starts_with_boundary r = true ->
  forall p u a, shape r p u a -> at_boundary (p, u ++ a) = true.
Proof.
  induction r as [|q| |x IHx y IHy|x IHx y IHy|lo hi x IHx];
    cbn [starts_with_boundary shape]; intros Hs p u a;
    try discriminate Hs.
  - intros [-> H]. exact H.
  - intros (u1 & u2 & -> & H1 & _). rewrite <- app_assoc.
    exact (IHx Hs _ _ _ H1).
  - apply andb_prop in Hs. destruct Hs as [H1 H2].
    intros [H|H]; [exact (IHx H1 _ _ _ H)|exact (IHy H2 _ _ _ H)].
Qed.

Lemma ends_boundary_shape (r : regex) :
  ends_with_boundary r = true ->
  forall p u a, shape r p u a -> at_boundary (last_char p u, a) = true.
Proof.
  induction r as [|q| |x IHx y IHy|x IHx y IHy|lo hi x IHx];
    cbn [ends_with_boundary shape]; intros Hs p u a;
    try discriminate Hs.
  - intros [-> H]. exact H.
  - intros (u1 & u2 & -> & _ & H2). rewrite last_char_app.
    exact (IHy Hs _ _ _ H2).
  - apply andb_prop in Hs. destruct Hs as [H1 H2].
    intros [H|H]; [exact (IHx H1 _ _ _ H)|exact (IHy H2 _ _ _ H)].
Qed.

Lemma run_shape (r : regex) (p : option ascii) (w rest : text) :
  In (last_char p w, rest) (run r (p, w ++ rest)) <-> shape r p w rest.
Proof.
  rewrite run_denote, denote_shape. simpl. split.
  - intros (u & [E _] & Hs). simpl in E. apply app_inv_tail in E.
    subst. exact Hs.
  - intros Hs. exists w. split; [split; reflexivity|exact Hs].
Qed.

End Contexts.

Section NoMatchLeft.

Variable r : regex.
Variable R : text.

Hypothesis r_advances :
  forall st st', In st' (run r st) -> length (snd st') < length (snd st).
Hypothesis r_context : context_free r = true \/ delimited r = true.
Hypothesis r_no_bracket : reads_only not_bracket r = true.
Hypothesis r_trigger : requires trigger r = true.
Hypothesis R_bracketed : bracketed R = true.

Lemma shape_word_facts (prev : option ascii) (w rest : text) :
  shape r prev w rest ->
  Forall (fun c => not_bracket c = true) w /\
  Exists (fun c => trigger c = true) w.
Proof.
  intros H.
  assert (Hm : matches_span r (match prev with Some c => [c] | None => [] end)
                            w rest).
  { apply matches_span_shape. destruct prev; exact H. }
  destruct (matches_span_word r _ w rest Hm) as [H1 H2]. auto.
Qed.

Lemma placeholder_ends (p : option ascii) :
  hd_error R = Some "["%char /\ last_char p R = Some "]"%char.
Proof.
  destruct (bracketed_spec R R_bracketed) as (Hopen & Hclose & _).
  split.
  - destruct R; [discriminate Hopen|exact Hopen].
  - assert (Hne : R <> []).
    { intros E. rewrite E in Hopen. discriminate Hopen. }
    destruct (exists_last Hne) as (R0 & z & E).
    rewrite E in Hclose |- *.
    rewrite last_char_app. rewrite length_app in Hclose.
    replace (length R0 + length [z] - 1) with (length R0 + 0) in Hclose
      by (simpl; lia).
    rewrite nth_error_app2 in Hclose by lia.
    replace (length R0 + 0 - length R0) with 0 in Hclose by lia.
    simpl in Hclose. injection Hclose as ->. reflexivity.
Qed.

(** A word without brackets at the head of the output stands at the head
    of the input, and what follows it is written for what follows it
    there. *)
Lemma emit_prefix (s : text) :
  forall prev w rest,
    Forall (fun c => not_bracket c = true) w ->
    emit r R 0 prev s = w ++ rest ->
    exists rest',
      s = w ++ rest' /\ rest = emit r R 0 (last_char prev w) rest'.
Proof.
  destruct (placeholder_ends None) as (Hopen & _).
  induction s as [|c t IH]; intros prev w rest Hw E; destruct w as [|x w'].
  - exists []. split; [reflexivity|symmetry; exact E].
  - destruct (match_here r (prev, [])) as [[p' s']|] eqn:Em.
    + exfalso. apply match_here_some, r_advances in Em. simpl in Em. lia.
    + rewrite (emit_miss r R prev [] Em) in E. discriminate E.
  - exists (c :: t). split; [reflexivity|symmetry; exact E].
  - destruct (match_here r (prev, c :: t)) as [[p' s']|] eqn:Em.
    + exfalso. destruct (emit_hit r R prev p' (c :: t) s' r_advances Em)
        as [_ Eh].
      rewrite Eh in E.
      pose proof (hd_error_app_l _ _ (emit r R 0 p' s') Hopen) as Hh.
      rewrite E in Hh. simpl in Hh. injection Hh as ->.
      inversion Hw as [|? ? Hx _]. discriminate Hx.
    + rewrite (emit_miss r R prev (c :: t) Em) in E.
      simpl in E. injection E as <- E.
      inversion Hw as [|? ? _ Hw']; subst.
      destruct (IH (Some c) w' rest Hw' E) as (rest' & -> & ->).
      exists rest'. split; reflexivity.
Qed.

(** The pattern matches nowhere in what the pass writes.  [oprev] is the
    character written last, [prev] the character read last: they differ
    only after a placeholder, where a match has just ended. *)
Lemma emit_no_match (n : nat) :
  forall s oprev prev B w A,
    length s <= n ->
    (delimited r = true ->
     word_char oprev = word_char prev \/
     word_char oprev = false /\ at_boundary (prev, s) = true) ->
    emit r R 0 prev s = B ++ w ++ A ->
    shape r (last_char oprev B) w A -> False.
Proof.
  induction n as [|n IH]; intros s oprev prev B w A Hlen Hinv E Hw;
    destruct (shape_word_facts _ _ _ Hw) as [Hnb Htr];
    assert (Hne : w <> []) by (intros ->; inversion Htr);
    destruct (match_here r (prev, s)) as [[p' s']|] eqn:Em.
  - apply match_here_some, r_advances in Em. simpl in Em. lia.
  - destruct s; [|simpl in Hlen; lia].
    rewrite (emit_miss r R prev [] Em) in E.
    symmetry in E. apply app_eq_nil in E. destruct E as [_ E].
    apply app_eq_nil in E. destruct E. congruence.
  - destruct (emit_hit r R prev p' s s' r_advances Em) as [Hlt Eh].
    rewrite Eh in E.
    destruct (word_outside_placeholder R [] (emit r R 0 p' s') B w A
                R_bracketed Hnb Htr (eq_sym E)) as [H|H].
    + destruct w; [congruence|simpl in H; lia].
    + destruct (app_eq_app_le R (emit r R 0 p' s') B (w ++ A) E H)
        as (B' & -> & E').
      apply (IH s' (last_char oprev R) p' B' w A); [lia| |exact E'|].
      * intros Hd. right. split.
        -- rewrite (proj2 (placeholder_ends oprev)). reflexivity.
        -- destruct (match_here_word r prev p' s s' r_advances Em)
             as (u & _ & _ & -> & _ & Hin).
           apply run_shape in Hin.
           apply andb_prop in Hd. destruct Hd as [_ He].
           exact (ends_boundary_shape r He _ _ _ Hin).
      * rewrite <- last_char_app. exact Hw.
  - rewrite (emit_miss r R prev s Em) in E.
    destruct s as [|c t].
    + symmetry in E. apply app_eq_nil in E. destruct E as [_ E].
      apply app_eq_nil in E. destruct E. congruence.
    + destruct B as [|c' B'].
      * change (shape r oprev w A) in Hw. simpl in E.
        destruct (emit_prefix (c :: t) prev w A Hnb) as (rest' & Es & EA).
        { rewrite (emit_miss r R prev (c :: t) Em). exact E. }
        apply match_here_none in Em.
        assert (Hin : shape r prev w rest').
        { destruct r_context as [Hcf|Hd].
          - exact (context_free_shape r Hcf _ _ _ _ _ Hw).
          - pose proof Hd as Hd'. apply andb_prop in Hd'.
            destruct Hd' as [Hs He].
            apply (shape_context r oprev w A); [| |exact Hw].
            + destruct (Hinv Hd) as [H|[H1 H2]]; [exact H|].
              pose proof (starts_boundary_shape r Hs _ _ _ Hw) as Hb.
              unfold at_boundary in Hb, H2. cbn [fst snd] in Hb, H2.
              rewrite (first_of_app w A Hne) in Hb.
              rewrite Es, (first_of_app w rest' Hne) in H2.
              rewrite H1 in Hb |- *.
              destruct (word_char (hd_error w)), (word_char prev);
                simpl in Hb, H2; congruence.
            + destruct (match_here r (last_char prev w, rest'))
                as [[p2 s2]|] eqn:Em2.
              * destruct (emit_hit r R _ p2 rest' s2 r_advances Em2)
                  as [_ Eh2].
                destruct (match_here_word r _ p2 rest' s2 r_advances Em2)
                  as (u & Hu & Eu & _ & _ & Hin2).
                apply run_shape in Hin2.
                pose proof (starts_boundary_shape r Hs _ _ _ Hin2) as Hb1.
                pose proof (ends_boundary_shape r He _ _ _ Hw) as Hb2.
                rewrite (last_char_nonempty oprev prev w Hne) in Hb2.
                rewrite EA, Eh2 in Hb2 |- *. rewrite Eu.
                unfold at_boundary in Hb1, Hb2. cbn [fst snd] in Hb1, Hb2.
                rewrite (hd_error_app_l _ _ _ (proj1 (placeholder_ends None)))
                  in Hb2 |- *.
                change (word_char (Some "["%char)) with false in Hb2 |- *.
                destruct (word_char (hd_error (u ++ s2))),
                  (word_char (last_char prev w));
                  simpl in Hb1, Hb2; congruence.
              * rewrite EA, (emit_miss r R _ rest' Em2).
                destruct rest'; reflexivity. }
        apply run_shape in Hin. rewrite <- Es, Em in Hin. exact Hin.
      * simpl in E. injection E as <- E.
        apply (IH t (Some c) (Some c) B' w A);
          [simpl in Hlen; lia|intros _; left; reflexivity|exact E|exact Hw].
Qed.

Lemma sub_no_match (s before w after : text) :
  sub r R s = before ++ w ++ after ->
  ~ matches_span r before w after.
Proof.
  intros E Hm. apply matches_span_shape in Hm.
  rewrite (sub_emit r R s r_advances) in E.
  exact (emit_no_match (length s) s None None before w after (le_n _)
                       (fun _ => or_introl eq_refl) E Hm).
Qed.

End NoMatchLeft.

Lemma clean_text_no_mac_match (t before w after : text) :
  clean_text t = before ++ w ++ after ->
  ~ matches_span MAC_ADDR before w after.
Proof.
  intros E. destruct t as [|c t'].
  - simpl in E. symmetry in E. apply app_eq_nil in E. destruct E as [-> E].
    apply app_eq_nil in E. destruct E as [-> ->].
    intros Hm. apply (pattern_advances "MAC_ADDR" MAC_ADDR) in Hm.
    + simpl in Hm. lia.
    + simpl. auto.
  - unfold clean_text, patterns in E. cbn [fold_left] in E.
    unfold apply_pattern at 1 in E. cbn [fst snd] in E.
    revert E. apply sub_no_match.
    + intros st st'. apply (pattern_advances "MAC_ADDR" MAC_ADDR).
      simpl. auto.
    + left. vm_compute. reflexivity.
    + vm_compute. reflexivity.
    + vm_compute. reflexivity.
    + vm_compute. reflexivity.
Qed.

(** ** Every pass removes the matches of its pattern *)

Section PassComplete.







End PassComplete.

(** X9: the text that [clean_text] returns holds no MAC address: the
    MAC_ADDR pattern, which is applied last, matches nowhere in it. *)
Theorem clean_text_output_has_no_mac (t before w after : text) :
  clean_text t = before ++ w ++ after ->
  ~ matches_span MAC_ADDR before w after /\ ~ mac_shape w.
Proof.
  intros E. pose proof (clean_text_no_mac_match t before w after E) as H.
  split; [exact H|].
  intros Hs. apply H. apply match_of_mac_shape. exact Hs.
Qed.

Lemma clean_text_output_has_no_mac_witness :
  ~ matches_span MAC_ADDR (lit "[REDACTED_MAC]") (lit "1.2.3.4") [] /\
  ~ mac_shape (lit "1.2.3.4").
Proof.
  apply (clean_text_output_has_no_mac (lit "00:11:22:33:44:FF1.2.3.4")
           (lit "[REDACTED_MAC]") (lit "1.2.3.4") []).
  vm_compute. reflexivity.
Defined.

(** X10: a text that holds none of the characters [.], [@], [:], [=] and
    [-] is returned unchanged: every match of a registered pattern holds
    one of them. *)
Theorem clean_text_without_triggers (t : text) :
  forallb (fun c => negb (trigger c)) t = true -> clean_text t = t.
Proof.
  intros H. apply clean_text_without_required with (p := trigger).
  - exact patterns_require_trigger.
  - rewrite forallb_forall in H. apply Forall_forall. intros c Hc.
    specialize (H c Hc). destruct (trigger c); [discriminate|reflexivity].
Qed.

Lemma clean_text_without_triggers_witness :
  clean_text (lit "Deploy finished, 3 pods ready") 
  = lit "Deploy finished, 3 pods ready".
Proof.
  apply (clean_text_without_triggers (lit "Deploy finished, 3 pods ready")).
  reflexivity.
Defined.

(** ** The script: what [main] writes and counts *)

Section Script.

Lemma lstrip_nil_iff (s : text) :
  lstrip s = [] <-> forallb is_whitespace s = true.
Proof.
  induction s as [|c t IH]; simpl; [tauto|].
  destruct (is_whitespace c); simpl; [exact IH|].
  split; discriminate.
Qed.

Lemma lstrip_head (s : text) (c : ascii) (t : text) :
  lstrip s = c :: t -> is_whitespace c = false.
Proof.
  induction s as [|x s IH]; simpl; [discriminate|].
  destruct (is_whitespace x) eqn:Hx; [exact IH|].
  intros [= <- _]. exact Hx.
Qed.

Lemma forallb_rev {A : Type} (f : A -> bool) (l : list A) :
  forallb f (rev l) = forallb f l.
Proof.
  induction l as [|x l IH]; [reflexivity|].
  simpl. rewrite forallb_app, IH. simpl.
  rewrite andb_true_r. apply andb_comm.
Qed.

(** [not s.strip()] holds exactly for a text of whitespace only. *)
Lemma strip_nil_iff (s : text) :
  strip s = [] <-> forallb is_whitespace s = true.
Proof.
  unfold strip. split.
  - intros H. apply (f_equal (@rev ascii)) in H.
    rewrite rev_involutive in H. simpl in H.
    apply lstrip_nil_iff in H. rewrite forallb_rev in H.
    destruct (lstrip s) as [|c t] eqn:E; [apply lstrip_nil_iff; exact E|].
    apply lstrip_head in E. simpl in H. rewrite E in H. discriminate.
  - intros H. apply lstrip_nil_iff in H. rewrite H. reflexivity.
Qed.

(** With the parameters of the script the chunking never raises. *)
Lemma default_chunks_returned (t : text) :
  exists chunks, create_chunks t CHUNK_SIZE OVERLAP = Returned chunks.
Proof.
  eexists. apply create_chunks_windows; unfold CHUNK_SIZE, OVERLAP; lia.
Qed.

Lemma fold_write_chunk (filename : text) (chunks : list text) (st : report) :
  fold_left (write_chunk filename) chunks st
  = {| written := written st
                  ++ List.concat (map (fun c => record_line (filename, c))
                                      chunks);
       total_files := total_files st;
       total_chunks := total_chunks st + length chunks |}.
Proof.
  revert st. induction chunks as [|c chunks IH]; intros st.
  - simpl. rewrite app_nil_r, Nat.add_0_r. destruct st; reflexivity.
  - cbn [fold_left]. rewrite IH. unfold write_chunk.
    cbn [written total_files total_chunks map List.concat length].
    unfold record_line. cbn [fst snd].
    rewrite <- !app_assoc. f_equal. lia.
Qed.

Lemma process_file_spec (st : report) (f : file) :
  process_file st f
  = {| written := written st ++ List.concat (map record_line (records_of f));
       total_files := total_files st + (if taken f then 1 else 0);
       total_chunks := total_chunks st + length (records_of f) |}.
Proof.
  assert (Hid : st = {| written := written st ++ [];
                        total_files := total_files st + 0;
                        total_chunks := total_chunks st + 0 |}).
  { rewrite app_nil_r, !Nat.add_0_r. destruct st; reflexivity. }
  destruct f as [filename read]. unfold process_file, records_of, taken.
  cbn [fst snd].
  destruct (is_text_file filename); cbn [negb andb];
    [|destruct read; exact Hid].
  destruct read as [raw|]; [|exact Hid].
  destruct (strip raw) as [|c s] eqn:Es.
  - apply strip_nil_iff in Es. rewrite Es. exact Hid.
  - assert (Hw : forallb is_whitespace raw = false).
    { destruct (forallb is_whitespace raw) eqn:E; [|reflexivity].
      apply strip_nil_iff in E. congruence. }
    rewrite Hw. cbn [negb]. unfold chunks_of.
    destruct (default_chunks_returned (clean_text raw)) as (chunks & ->).
    rewrite fold_write_chunk. cbn [written total_files total_chunks].
    rewrite map_map, length_map. f_equal. lia.
Qed.

Lemma fold_process_file (files : list file) (st : report) :
  fold_left process_file files st
  = {| written := written st
                  ++ List.concat (map record_line (flat_map records_of files));
       total_files := total_files st + length (filter taken files);
       total_chunks := total_chunks st + length (flat_map records_of files) |}.
Proof.
  revert st. induction files as [|f files IH]; intros st.
  - simpl. rewrite app_nil_r, !Nat.add_0_r. destruct st; reflexivity.
  - cbn [fold_left]. rewrite IH, process_file_spec.
    cbn [written total_files total_chunks flat_map filter].
    rewrite map_app, concat_app, length_app, <- app_assoc.
    f_equal; destruct (taken f); simpl; lia.
Qed.

(** X11: the counters of [main] tell what was written.  The output is the
    lines of the records of the files that were taken, in the order of
    the files; [total_chunks] is the number of these records, and
    [total_files] the number of files whose name has one of the endings,
    that could be read and that hold more than whitespace. *)
Theorem main_report (files : list file) :
  written (main files)
  = List.concat (map record_line (flat_map records_of files)) /\
  total_chunks (main files) = length (flat_map records_of files) /\
  total_files (main files) = length (filter taken files).
Proof.
  unfold main. rewrite fold_process_file. auto.
Qed.

Lemma json_escape_printable (c : ascii) :
  forallb printable (json_escape c) = true.
Proof. destruct c as [[] [] [] [] [] [] [] []]; reflexivity. Qed.

Lemma json_string_printable (s : text) :
  forallb printable (json_string s) = true.
Proof.
  unfold json_string. cbn [forallb]. rewrite forallb_app.
  assert (H : forallb printable (flat_map json_escape s) = true).
  { induction s as [|c s IH]; [reflexivity|].
    cbn [flat_map]. rewrite forallb_app, json_escape_printable, IH.
    reflexivity. }
  rewrite H. reflexivity.
Qed.

Lemma json_record_printable (filename chunk : text) :
  forallb printable (json_record filename chunk) = true.
Proof.
  unfold json_record.
  rewrite !forallb_app, !json_string_printable. reflexivity.
Qed.

Lemma printable_no_newline (l : text) :
  forallb printable l = true -> count_occ ascii_dec l newline = 0.
Proof.
  intros H. apply count_occ_not_In. intros Hin.
  rewrite forallb_forall in H. specialize (H _ Hin). discriminate H.
Qed.

(** X12: the output is line-delimited.  Every record is written as
    printable ASCII characters followed by one newline, so that the number
    of newline characters in the output is [total_chunks]. *)
Theorem main_writes_lines (files : list file) :
  (forall filename chunk,
      forallb printable (json_record filename chunk) = true) /\
  count_occ ascii_dec (written (main files)) newline
  = total_chunks (main files).
Proof.
  split; [apply json_record_printable|].
  unfold main. rewrite fold_process_file.
  cbn [written total_chunks app Nat.add].
  induction (flat_map records_of files) as [|rec recs IH]; [reflexivity|].
  cbn [map List.concat length]. rewrite count_occ_app, IH.
  unfold record_line. rewrite count_occ_app.
  rewrite (printable_no_newline _ (json_record_printable _ _)).
  reflexivity.
Qed.

End Script.

(** ** The script: what the records hold *)

Section Records.

(** A token of a text is a part of the text; the first token begins the
    text when the text does not begin with whitespace. *)
Lemma split_parts (t : text) :
  (forall tok, In tok (split t) -> exists B A, t = B ++ tok ++ A) /\
  (at_gap t = false -> exists w ws A, split t = w :: ws /\ t = w ++ A).
Proof.
  induction t as [|c t [IH1 IH2]]; [split; [intros tok []|discriminate]|].
  simpl split. simpl at_gap.
  destruct (is_whitespace c) eqn:Hc.
  - split; [|discriminate]. intros tok Hin.
    destruct (IH1 tok Hin) as (B & A & ->). exists (c :: B), A. reflexivity.
  - destruct (at_gap t) eqn:Hg.
    + split.
      * intros tok [<-|Hin]; [exists [], t; reflexivity|].
        destruct (IH1 tok Hin) as (B & A & ->). exists (c :: B), A. reflexivity.
      * intros _. exists [c], (split t), t. auto.
    + destruct (IH2 eq_refl) as (w & ws & A & Hs & Ht). rewrite Hs in *. split.
      * intros tok [<-|Hin].
        -- exists [], A. rewrite Ht. reflexivity.
        -- destruct (IH1 tok (or_intror Hin)) as (B & A' & E).
           exists (c :: B), A'. rewrite E. reflexivity.
      * intros _. exists (c :: w), ws, A. rewrite Ht. auto.
Qed.

(** A word without a space that stands in a joined list of tokens stands
    in one of the tokens. *)
Lemma word_in_join (ws : list text) :
  forall B w A,
    join (lit " ") ws = B ++ w ++ A ->
    w <> [] -> Forall (fun c => not_space c = true) w ->
    exists tok B' A', In tok ws /\ tok = B' ++ w ++ A'.
Proof.
  induction ws as [|x rest IH]; intros B w A E Hne Hw.
  - simpl in E. symmetry in E. apply app_eq_nil in E. destruct E as [_ E].
    apply app_eq_nil in E. destruct E. congruence.
  - destruct rest as [|y rest'].
    + simpl in E. exists x, B, A. split; [left; reflexivity|exact E].
    + change (join (lit " ") (x :: y :: rest'))
        with (x ++ " "%char :: join (lit " ") (y :: rest')) in E.
      destruct (le_lt_dec (length (B ++ w)) (length x)) as [H1|H1].
      * rewrite app_assoc in E. symmetry in E.
        destruct (app_eq_app_le _ _ _ _ E H1) as (b' & Hx & _).
        exists x, B, b'. split; [left; reflexivity|].
        rewrite Hx, <- app_assoc. reflexivity.
      * destruct (le_lt_dec (length (x ++ [" "%char])) (length B)) as [H2|H2].
        -- assert (E' : (x ++ [" "%char]) ++ join (lit " ") (y :: rest')
                        = B ++ w ++ A)
             by (rewrite <- app_assoc; exact E).
           destruct (app_eq_app_le _ _ _ _ E' H2) as (B' & -> & EJ).
           destruct (IH B' w A EJ Hne Hw) as (tok & B2 & A2 & Hin & Ht).
           exists tok, B2, A2. split; [right; exact Hin|exact Ht].
        -- exfalso. rewrite !length_app in *. simpl in H2.
           assert (Hn : nth_error w (length x - length B) = Some " "%char).
           { rewrite <- (nth_error_middle B w A) by lia.
             rewrite <- E.
             replace (length B + (length x - length B)) with (length x + 0)
               by lia.
             rewrite nth_error_app2 by lia.
             replace (length x + 0 - length x) with 0 by lia. reflexivity. }
           apply nth_error_In in Hn. rewrite Forall_forall in Hw.
           specialize (Hw _ Hn). discriminate Hw.
Qed.

Lemma In_slice {A : Type} (x : A) (l : list A) (n i : nat) :
  In x (firstn n (skipn i l)) -> In x l.
Proof.
  intros H. rewrite <- (firstn_skipn i l). apply in_or_app. right.
  rewrite <- (firstn_skipn n (skipn i l)). apply in_or_app. left. exact H.
Qed.

Lemma mac_shape_word (w : text) :
  mac_shape w -> w <> [] /\ Forall (fun c => not_space c = true) w.
Proof.
  intros H. apply (match_of_mac_shape [] w []) in H.
  destruct (matches_span_word MAC_ADDR [] w [] H) as [Hro Hrq].
  split.
  - intros ->. specialize (Hrq trigger ltac:(vm_compute; reflexivity)).
    inversion Hrq.
  - apply Hro. vm_compute. reflexivity.
Qed.

(** What the records of the files are. *)
Lemma records_of_spec (files : list file) (source chunk : text) :
  In (source, chunk) (flat_map records_of files) ->
  exists raw,
    In (source, Some raw) files /\
    is_text_file source = true /\
    forallb is_whitespace raw = false /\
    (exists i, chunk = join (lit " ")
                            (tokens_from (split (clean_text raw)) 500 i)) /\
    length (split chunk) <= 500 /\
    50 < length chunk /\
    forall before w after, chunk = before ++ w ++ after -> ~ mac_shape w.
Proof.
  intros Hin. apply in_flat_map in Hin. destruct Hin as ([name read] & Hf & Hr).
  unfold records_of, taken in Hr. cbn [fst snd] in Hr.
  destruct read as [raw|]; [|contradiction].
  destruct (is_text_file name) eqn:Hname; [|contradiction].
  destruct (forallb is_whitespace raw) eqn:Hraw; [contradiction|].
  cbn [andb negb] in Hr. apply in_map_iff in Hr.
  destruct Hr as (c & [= <- <-] & Hc).
  unfold chunks_of in Hc.
  rewrite (create_chunks_windows (clean_text raw) CHUNK_SIZE OVERLAP)
    in Hc by (unfold CHUNK_SIZE, OVERLAP; lia).
  apply filter_In in Hc. destruct Hc as [Hc Hlong].
  apply in_map_iff in Hc. destruct Hc as (k & <- & _).
  change (Z.to_nat CHUNK_SIZE) with 500 in *.
  set (slice := tokens_from (split (clean_text raw)) 500
                            (k * Z.to_nat (CHUNK_SIZE - OVERLAP))) in *.
  assert (Htok : Forall token slice) by apply tokens_from_tokens.
  exists raw. repeat split; try assumption.
  - exists (k * Z.to_nat (CHUNK_SIZE - OVERLAP)). reflexivity.
  - rewrite (split_join slice Htok). unfold slice, tokens_from.
    apply firstn_le_length.
  - apply Nat.ltb_lt. exact Hlong.
  - intros before w after E Hmac.
    destruct (mac_shape_word w Hmac) as [Hne Hw].
    destruct (word_in_join slice before w after E Hne Hw)
      as (tok & B' & A' & Hin & ->).
    assert (Hin' : In (B' ++ w ++ A') (split (clean_text raw))).
    { unfold slice, tokens_from in Hin. eapply In_slice. exact Hin. }
    destruct (proj1 (split_parts (clean_text raw)) _ Hin') as (B & A & Et).
    apply (clean_text_no_mac_match raw (B ++ B') w (A' ++ A)).
    + rewrite Et, <- !app_assoc. reflexivity.
    + apply match_of_mac_shape. exact Hmac.
Qed.

(** X13: what [main] writes is a sequence of record lines, [total_chunks]
    of them, and every record in it comes from a file that was taken and
    carries a chunk of the sanitized content of that file: the
    single-space join of at most 500 consecutive tokens of it, longer than
    50 characters, in which no MAC address stands. *)
Theorem main_records (files : list file) :
  exists recs,
    written (main files) = List.concat (map record_line recs) /\
    total_chunks (main files) = length recs /\
    forall source chunk,
      In (source, chunk) recs ->
      exists raw,
        In (source, Some raw) files /\
        is_text_file source = true /\
        forallb is_whitespace raw = false /\
        (exists i, chunk = join (lit " ")
                                (tokens_from (split (clean_text raw)) 500 i)) /\
        length (split chunk) <= 500 /\
        50 < length chunk /\
        forall before w after, chunk = before ++ w ++ after -> ~ mac_shape w.
Proof.
  exists (flat_map records_of files). unfold main.
  rewrite fold_process_file. cbn [written total_chunks app Nat.add].
  split; [reflexivity|]. split; [reflexivity|].
  intros source chunk. apply records_of_spec.
Qed.

Lemma main_records_witness :
  exists recs,
    length recs = 1 /\
    forall source chunk,
      In (source, chunk) recs ->
      exists raw,
        In (source, Some raw)
           [(lit "a.log",
             Some (lit "aa:bb:cc:dd:ee:ff " ++ three_long_words))] /\
        is_text_file source = true /\
        forallb is_whitespace raw = false /\
        (exists i, chunk = join (lit " ")
                                (tokens_from (split (clean_text raw)) 500 i)) /\
        length (split chunk) <= 500 /\
        50 < length chunk /\
        forall before w after, chunk = before ++ w ++ after -> ~ mac_shape w.
Proof.
  destruct (main_records
              [(lit "a.log",
                Some (lit "aa:bb:cc:dd:ee:ff " ++ three_long_words))])
    as (recs & _ & Hn & H).
  exists recs. split; [|exact H].
  rewrite <- Hn. vm_compute. reflexivity.
Defined.

End Records.

(** ** The script: a line determines its record *)

Section Lines.

Lemma json_read_escape (c : ascii) (t : text) :
  json_read (json_escape c ++ t)
  = option_map (fun p => (c :: fst p, snd p)) (json_read t).
Proof. destruct c as [[] [] [] [] [] [] [] []]; reflexivity. Qed.

Lemma json_read_string (s rest : text) :
  json_read (flat_map json_escape s ++ quote :: rest) = Some (s, rest).
Proof.
  induction s as [|c s IH]; [reflexivity|].
  cbn [flat_map]. rewrite <- app_assoc, json_read_escape, IH. reflexivity.
Qed.

Lemma json_string_inj (s1 s2 r1 r2 : text) :
  json_string s1 ++ r1 = json_string s2 ++ r2 -> s1 = s2 /\ r1 = r2.
Proof.
  unfold json_string. cbn [app]. rewrite <- !app_assoc. cbn [app].
  intros [= E]. apply (f_equal json_read) in E.
  rewrite !json_read_string in E. injection E as -> ->. auto.
Qed.

(** X14: a line of the output determines its record: two records with the
    same line have the same source and the same text. *)
Theorem json_record_inj (source1 chunk1 source2 chunk2 : text) :
  json_record source1 chunk1 = json_record source2 chunk2 ->
  source1 = source2 /\ chunk1 = chunk2.
Proof.
  unfold json_record. intros E.
  apply app_inv_head in E. apply app_inv_head in E. apply app_inv_head in E.
  apply json_string_inj in E. destruct E as [-> E].
  apply app_inv_head in E. apply app_inv_head in E. apply app_inv_head in E.
  apply json_string_inj in E. destruct E as [-> _]. auto.
Qed.

Lemma json_record_inj_witness :
  lit "a.log" = lit "a.log" /\ three_long_words = three_long_words.
Proof.
  apply (json_record_inj (lit "a.log") three_long_words
                         (lit "a.log") three_long_words).
  reflexivity.
Defined.

End Lines.
